(** * SparseMatrix: a shallow embedding of [code/src/SparseMatrix.js]

    The class keeps a sparse matrix as a JavaScript object whose keys are
    the strings ["row,col"]; it loads matrices from a small text format,
    adds, subtracts and multiplies them and prints them back.

    Conventions of the embedding:
    - a JavaScript number is an integer of [Z] or [NaN] (type [num]); the
      arithmetic of the class is the arithmetic of [Z], which is what
      IEEE doubles compute as long as every intermediate value stays below
      2^53 in absolute value.  [-0] and [0] are the same integer: the class
      only observes numbers through [===], [<], [>=], [isNaN], [Math.max]
      and template literals, none of which tells them apart;
    - a JavaScript string is a [string]; a template literal prints an integer
      with stdpp's [pretty] (decimal digits, a leading [-] when negative),
      which is what the language prints for integers of that range;
    - the object [this.elements] is an association list in insertion order,
      which is the order [for (key in ...)] visits string keys in;
    - [throw new Error(msg)] is the result [Throw (Error msg)];
    - methods that read or write [this] are state-passing functions;
    - reading and writing files ([_readFile], [_writeFile]) and the console
      are outside the embedding: [loadFromFile] receives the content of the
      file;
    - of the interactive driver [code/src/index.js] the embedding has the
      part of [main] from the loading of the two files on ([main_try], with
      the contents of the files and the choice as arguments and the text
      written as result) and the input handler of [CustomReadLine] as a
      function of the buffer. *)

From Stdlib Require Import ZArith String Ascii List Lia Permutation Bool.
From stdpp Require Import base list strings pretty sorting.
Import ListNotations.

Local Open Scope string_scope.
Local Open Scope Z_scope.

(** ** Numbers, errors and results *)

Inductive num : Type :=
  | NaN : num
  | Int : Z -> num.

(** [`${x}`] for a number. *)
Definition num_to_string (x : num) : string :=
  match x with NaN => "NaN" | Int z => pretty z end.

(** [x < n] and [x >= n]: every comparison with [NaN] is false. *)
Definition num_ltb (x : num) (n : Z) : bool :=
  match x with NaN => false | Int z => z <? n end.
Definition num_geb (x : num) (n : Z) : bool :=
  match x with NaN => false | Int z => n <=? z end.

(** [x === y] on numbers: [NaN] is not equal to itself. *)
Definition num_eqb (x y : num) : bool :=
  match x, y with Int a, Int b => a =? b | _, _ => false end.

Definition num_sub (x y : num) : num :=
  match x, y with Int a, Int b => Int (a - b) | _, _ => NaN end.

Inductive exn : Type :=
  | Error : string -> exn.

Definition message (e : exn) : string :=
  match e with Error msg => msg end.

Inductive result (A : Type) : Type :=
  | Ok : A -> result A
  | Throw : exn -> result A.
Arguments Ok {A} _.
Arguments Throw {A} _.

(** ** String primitives of the host language *)

(** [s.startsWith(p)] *)
Fixpoint startsWith (p s : string) : bool :=
  match p with
  | EmptyString => true
  | String a p' =>
      match s with
      | EmptyString => false
      | String b s' => Ascii.eqb a b && startsWith p' s'
      end
  end.

(** [s.endsWith(c)] for a one-character suffix. *)
Fixpoint endsWith (c : ascii) (s : string) : bool :=
  match s with
  | EmptyString => false
  | String a EmptyString => Ascii.eqb a c
  | String _ rest => endsWith c rest
  end.

(** [s.substring(n)] *)
Fixpoint substring_from (n : nat) (s : string) : string :=
  match n, s with
  | O, _ => s
  | S n', String _ s' => substring_from n' s'
  | S _, EmptyString => EmptyString
  end.

(** [s.includes(sub)] *)
Fixpoint includes (sub s : string) : bool :=
  startsWith sub s ||
  match s with
  | EmptyString => false
  | String _ s' => includes sub s'
  end.

(** ** The string helpers of the class *)

(** [_splitString(str, delimiter)].  Every call site passes a delimiter of
    one character (a line feed or a comma), so the delimiter is an [ascii].
    [split_go] returns the piece in front of the first delimiter and the
    pieces after it. *)
Fixpoint split_go (delimiter : ascii) (str : string) : string * list string :=
  match str with
  | EmptyString => (EmptyString, [])
  | String c rest =>
      let '(piece, pieces) := split_go delimiter rest in
      if Ascii.eqb c delimiter then (EmptyString, piece :: pieces)
      else (String c piece, pieces)
  end.

Definition _splitString (str : string) (delimiter : ascii) : list string :=
  let '(piece, pieces) := split_go delimiter str in piece :: pieces.

(** The four characters [_trim] skips: space, tab, line feed, carriage
    return. *)
Definition is_space (c : ascii) : bool :=
  Ascii.eqb c " " || Ascii.eqb c "009" || Ascii.eqb c "010" || Ascii.eqb c "013".

(** The first loop of [_trim]: advance [start] over white space. *)
Fixpoint trim_start (str : string) : string :=
  match str with
  | EmptyString => EmptyString
  | String c rest => if is_space c then trim_start rest else str
  end.

(** The second loop of [_trim]: move [end] back over white space. *)
Fixpoint trim_end (str : string) : string :=
  match str with
  | EmptyString => EmptyString
  | String c rest =>
      match trim_end rest with
      | EmptyString => if is_space c then EmptyString else String c EmptyString
      | kept => String c kept
      end
  end.

Definition _trim (str : string) : string := trim_end (trim_start str).

(** [char < '0' || char > '9'] is [negb (is_digit char)]. *)
Definition is_digit (c : ascii) : bool :=
  (48 <=? nat_of_ascii c)%nat && (nat_of_ascii c <=? 57)%nat.

(** The loop of [_parseInt] from index [i] on, [result] being the
    accumulator. *)
Fixpoint parse_digits (str : string) (result : Z) : num :=
  match str with
  | EmptyString => Int result
  | String c rest =>
      if is_digit c
      then parse_digits rest (result * 10 + (Z.of_nat (nat_of_ascii c) - 48))
      else NaN
  end.

Definition _parseInt (str : string) : num :=
  match str with
  | EmptyString => NaN
  | String c rest =>
      if Ascii.eqb c "-"
      then match parse_digits rest 0 with
           | Int r => Int (- r)
           | NaN => NaN
           end
      else parse_digits str 0
  end.

(** [_parseInt(parts[i])]: a missing part is [undefined], which [!str]
    sends to [NaN]. *)
Definition parseInt_part (parts : list string) (i : nat) : num :=
  match nth_error parts i with
  | Some s => _parseInt s
  | None => NaN
  end.

Record element : Type := mkElement { row : Z; col : Z; value : Z }.

(** [_parseElementLine(line)]; [null] is [None].  The final [match] is the
    test [isNaN(row) || isNaN(col) || isNaN(value)]. *)
Definition _parseElementLine (line : string) : option element :=
  if negb (startsWith "(" line) || negb (endsWith ")" line) then None
  else
    let inner := substring 1 (String.length line - 2) line in
    let parts := _splitString inner "," in
    if negb (Nat.eqb (List.length parts) 3) then None
    else
      let row := parseInt_part (map _trim parts) 0 in
      let col := parseInt_part (map _trim parts) 1 in
      let value := parseInt_part (map _trim parts) 2 in
      match row, col, value with
      | Int r, Int c, Int v => Some (mkElement r c v)
      | _, _, _ => None
      end.

(** ** The object [this.elements] *)

(** A JavaScript object with string keys, as the list of its own properties
    in insertion order. *)
Definition object : Type := list (string * Z).

(** [o[key]]; [undefined] is [None]. *)
Fixpoint obj_get (key : string) (o : object) : option Z :=
  match o with
  | [] => None
  | (k, v) :: rest => if String.eqb k key then Some v else obj_get key rest
  end.

(** [o[key] = v]: an existing property keeps its place, a new one goes to
    the end. *)
Fixpoint obj_set (key : string) (v : Z) (o : object) : object :=
  match o with
  | [] => [(key, v)]
  | (k, w) :: rest =>
      if String.eqb k key then (k, v) :: rest else (k, w) :: obj_set key v rest
  end.

(** [delete o[key]] *)
Fixpoint obj_delete (key : string) (o : object) : object :=
  match o with
  | [] => []
  | (k, w) :: rest =>
      if String.eqb k key then rest else (k, w) :: obj_delete key rest
  end.

(** ** The class *)

Record SparseMatrix : Type := mkSparseMatrix {
  rows : Z;
  cols : Z;
  elements : object;
  elementCount : Z
}.

(** A method: it receives [this] and either throws or returns a value and
    the updated [this]. *)
Definition M (A : Type) : Type := SparseMatrix -> result (A * SparseMatrix).

Definition ret {A} (a : A) : M A := fun this => Ok (a, this).

Definition bind {A B} (m : M A) (k : A -> M B) : M B :=
  fun this =>
    match m this with
    | Ok (a, this') => k a this'
    | Throw e => Throw e
    end.

Notation "'let*' x ':=' m 'in' k" := (bind m (fun x => k))
  (at level 10, x name, k at level 200).

(** [for (const x of xs) body(x)] *)
Fixpoint for_each {A} (xs : list A) (body : A -> M unit) : M unit :=
  match xs with
  | [] => ret tt
  | x :: rest => let* _ := body x in for_each rest body
  end.

Definition _createKey (row col : num) : string :=
  num_to_string row +:+ "," +:+ num_to_string col.

(** [row < 0 || row >= this.rows || col < 0 || col >= this.cols] *)
Definition out_of_bounds (this : SparseMatrix) (row col : num) : bool :=
  num_ltb row 0 || num_geb row (rows this) ||
  num_ltb col 0 || num_geb col (cols this).

Definition out_of_bounds_message (this : SparseMatrix) (row col : num) : string :=
  "Index out of bounds: (" +:+ num_to_string row +:+ ", " +:+ num_to_string col
  +:+ ") not in matrix of size " +:+ pretty (rows this) +:+ "x"
  +:+ pretty (cols this).

Definition getElement (row col : num) : M Z := fun this =>
  if out_of_bounds this row col
  then Throw (Error (out_of_bounds_message this row col))
  else
    let key := _createKey row col in
    Ok (match obj_get key (elements this) with
        | Some v => v
        | None => 0
        end, this).

Definition setElement (row col : num) (value : Z) : M unit := fun this =>
  if out_of_bounds this row col
  then Throw (Error (out_of_bounds_message this row col))
  else
    let key := _createKey row col in
    if value =? 0 then
      match obj_get key (elements this) with
      | Some _ =>
          Ok (tt, mkSparseMatrix (rows this) (cols this)
                    (obj_delete key (elements this)) (elementCount this - 1))
      | None => Ok (tt, this)
      end
    else
      let count :=
        match obj_get key (elements this) with
        | Some _ => elementCount this
        | None => elementCount this + 1
        end in
      Ok (tt, mkSparseMatrix (rows this) (cols this)
                (obj_set key value (elements this)) count).

(** The first pass of [loadFromFile] over the lines from index [i] on. *)
Fixpoint first_pass (i : nat) (lines : list string) (maxRow maxCol : Z)
    (validElements : list element) : result (Z * Z * list element) :=
  match lines with
  | [] => Ok (maxRow, maxCol, validElements)
  | line :: rest =>
      match _parseElementLine line with
      | None =>
          Throw (Error ("Input file has wrong format at line "
                        +:+ pretty (Z.of_nat i + 1) +:+ ": " +:+ line))
      | Some element =>
          first_pass (S i) rest (Z.max maxRow (row element))
            (Z.max maxCol (col element)) (validElements ++ [element])
      end
  end.

(** The second pass: only non-zero values are stored. *)
Definition second_pass (validElements : list element) : M unit :=
  for_each validElements (fun element =>
    if negb (value element =? 0)
    then setElement (Int (row element)) (Int (col element)) (value element)
    else ret tt).

(** The non-blank lines of the file, trimmed. *)
Definition valid_lines (data : string) : list string :=
  List.filter (fun trimmedLine => negb (String.eqb trimmedLine ""))
              (map _trim (_splitString data "010")).

(** The [try] block of [loadFromFile]; [data] is what [_readFile] returned
    for the path. *)
Definition loadFromFile_try (data : string) : M unit := fun this =>
  let validLines := valid_lines data in
  if (List.length validLines <? 3)%nat
  then Throw (Error "Input file has wrong format: insufficient data")
  else
    let rowsLine := nth 0 validLines "" in
    if negb (startsWith "rows=" rowsLine)
    then Throw (Error "Input file has wrong format: rows specification not found")
    else
      let rows_ := _parseInt (substring_from 5 rowsLine) in
      let colsLine := nth 1 validLines "" in
      if negb (startsWith "cols=" colsLine)
      then Throw (Error "Input file has wrong format: columns specification not found")
      else
        let cols_ := _parseInt (substring_from 5 colsLine) in
        match rows_, cols_ with
        | Int r, Int c =>
            if (r <=? 0) || (c <=? 0)
            then Throw (Error "Input file has wrong format: invalid dimensions")
            else
              match first_pass 2 (skipn 2 validLines) 0 0 [] with
              | Throw e => Throw e
              | Ok (maxRow, maxCol, validElements) =>
                  let this' :=
                    if (r <=? maxRow) || (c <=? maxCol)
                    then mkSparseMatrix (maxRow + 1) (maxCol + 1)
                           (elements this) (elementCount this)
                    else mkSparseMatrix r c (elements this) (elementCount this) in
                  second_pass validElements this'
              end
        | _, _ => Throw (Error "Input file has wrong format: invalid dimensions")
        end.

(** [loadFromFile]: the [catch] block replaces every error whose message
    contains ["wrong format"] by one uniform error and rethrows the others. *)
Definition loadFromFile (data : string) : M unit := fun this =>
  match loadFromFile_try data this with
  | Ok r => Ok r
  | Throw error =>
      if includes "wrong format" (message error)
      then Throw (Error "Input file has wrong format")
      else Throw error
  end.

(** [new SparseMatrix(matrixFilePath, numRows, numCols)].  A path is given
    by the content of the file it names ([None] when the argument is
    [null]); the object starts with no element. *)
Definition new_SparseMatrix (matrixFilePath : option string)
    (numRows numCols : option Z) : result SparseMatrix :=
  let this := mkSparseMatrix 0 0 [] 0 in
  match matrixFilePath with
  | Some data =>
      match loadFromFile data this with
      | Ok (_, this') => Ok this'
      | Throw e => Throw e
      end
  | None =>
      match numRows, numCols with
      | Some r, Some c => Ok (mkSparseMatrix r c [] 0)
      | _, _ => Throw (Error "Invalid arguments")
      end
  end.

(** [parse]: construction from the text of a file. *)
Definition parse (doc : string) : result SparseMatrix :=
  new_SparseMatrix (Some doc) None None.

(** [new SparseMatrix(null, numRows, numCols)] *)
Definition zero_matrix (numRows numCols : Z) : SparseMatrix :=
  mkSparseMatrix numRows numCols [] 0.

(** [const [rowStr, colStr] = this._splitString(key, ',')] followed by the
    two [_parseInt] calls. *)
Definition key_row (key : string) : num := parseInt_part (_splitString key ",") 0.
Definition key_col (key : string) : num := parseInt_part (_splitString key ",") 1.

(** The first loop of [add] and [subtract]: copy the elements of [this]. *)
Definition copy_elements (src : object) : M unit :=
  for_each src (fun '(key, v) => setElement (key_row key) (key_col key) v).

(** The second loop, with [op] being [+] or [-]. *)
Definition combine_elements (op : Z -> Z -> Z) (src : object) : M unit :=
  for_each src (fun '(key, v) =>
    let* currentValue := getElement (key_row key) (key_col key) in
    setElement (key_row key) (key_col key) (op currentValue v)).

Definition run {A} (m : M A) (this : SparseMatrix) : result SparseMatrix :=
  match m this with
  | Ok (_, this') => Ok this'
  | Throw e => Throw e
  end.

Definition add (this matrix : SparseMatrix) : result SparseMatrix :=
  if negb (rows this =? rows matrix) || negb (cols this =? cols matrix)
  then Throw (Error "Matrix dimensions don't match for addition")
  else
    run (let* _ := copy_elements (elements this) in
         combine_elements Z.add (elements matrix))
        (zero_matrix (rows this) (cols this)).

Definition subtract (this matrix : SparseMatrix) : result SparseMatrix :=
  if negb (rows this =? rows matrix) || negb (cols this =? cols matrix)
  then Throw (Error "Matrix dimensions don't match for subtraction")
  else
    run (let* _ := copy_elements (elements this) in
         combine_elements Z.sub (elements matrix))
        (zero_matrix (rows this) (cols this)).

Definition multiply (this matrix : SparseMatrix) : result SparseMatrix :=
  if negb (cols this =? rows matrix)
  then Throw (Error "Matrix dimensions don't match for multiplication")
  else
    run (for_each (elements this) (fun '(keyA, valueA) =>
           let rowA := key_row keyA in
           let colA := key_col keyA in
           for_each (elements matrix) (fun '(keyB, valueB) =>
             let rowB := key_row keyB in
             let colB := key_col keyB in
             if num_eqb colA rowB then
               let product := valueA * valueB in
               if negb (product =? 0) then
                 let* currentValue := getElement rowA colB in
                 setElement rowA colB (currentValue + product)
               else ret tt
             else ret tt)))
        (zero_matrix (rows this) (cols matrix)).

(** ** Serialization *)

Record entry : Type := mkEntry { e_row : num; e_col : num; e_value : Z }.

(** The comparator passed to [sort]. *)
Definition compare_entries (a b : entry) : num :=
  if negb (num_eqb (e_row a) (e_row b))
  then num_sub (e_row a) (e_row b)
  else num_sub (e_col a) (e_col b).

(** [Array.prototype.sort] is stable; a comparator result that is positive
    puts [b] first, anything else ([NaN] included) keeps [a] first. *)
Definition comes_after (cmp : entry -> entry -> num) (a b : entry) : bool :=
  match cmp a b with Int z => 0 <? z | NaN => false end.

Fixpoint sort_insert (cmp : entry -> entry -> num) (a : entry)
    (sorted : list entry) : list entry :=
  match sorted with
  | [] => [a]
  | b :: rest =>
      if comes_after cmp a b then b :: sort_insert cmp a rest
      else a :: sorted
  end.

Definition sort (cmp : entry -> entry -> num) (entries : list entry) : list entry :=
  fold_right (sort_insert cmp) [] entries.

Definition entry_of (kv : string * Z) : entry :=
  mkEntry (key_row (fst kv)) (key_col (fst kv)) (snd kv).

Definition entry_line (e : entry) : string :=
  "(" +:+ num_to_string (e_row e) +:+ ", " +:+ num_to_string (e_col e)
  +:+ ", " +:+ pretty (e_value e) +:+ ")" +:+ String "010" "".

Definition toString (this : SparseMatrix) : string :=
  let header :=
    "rows=" +:+ pretty (rows this) +:+ String "010" ""
    +:+ "cols=" +:+ pretty (cols this) +:+ String "010" "" in
  let entries := sort compare_entries (map entry_of (elements this)) in
  fold_left (fun result e => result +:+ entry_line e) entries header.

(** * Vocabulary of the specification *)

(** Every character of [s] satisfies [p]. *)
Fixpoint all_chars (p : ascii -> bool) (s : string) : bool :=
  match s with
  | EmptyString => true
  | String a rest => p a && all_chars p rest
  end.

Definition not_char (d : ascii) : ascii -> bool :=
  fun a => negb (Ascii.eqb a d).

Definition is_numeral_char (a : ascii) : bool :=
  is_digit a || Ascii.eqb a "-".

Definition key (r c : Z) : string := _createKey (Int r) (Int c).

Definition keys (o : object) : list string := map fst o.

Definition in_bounds (m : SparseMatrix) (r c : Z) : bool :=
  (0 <=? r) && (r <? rows m) && (0 <=? c) && (c <? cols m).

(** The value the matrix holds at an integer coordinate: the stored one, or
    zero. *)
Definition cell (m : SparseMatrix) (r c : Z) : Z :=
  match obj_get (key r c) (elements m) with
  | Some v => v
  | None => 0
  end.

(** A key that [_createKey] made from an in-bounds integer coordinate. *)
Definition key_ok (m : SparseMatrix) (k : string) : bool :=
  match key_row k, key_col k with
  | Int r, Int c => in_bounds m r c && String.eqb k (key r c)
  | _, _ => false
  end.

Fixpoint distinct (ks : list string) : bool :=
  match ks with
  | [] => true
  | k :: rest => negb (existsb (String.eqb k) rest) && distinct rest
  end.

(** The sparsity invariant: no stored zero, and [elementCount] is the number
    of stored entries.  The list stands for an object, so it also has one
    entry per key. *)
Definition sparsity_invariant (m : SparseMatrix) : bool :=
  distinct (keys (elements m)) &&
  forallb (fun kv => negb (snd kv =? 0)) (elements m) &&
  (elementCount m =? Z.of_nat (List.length (elements m))).

(** What every matrix built through the interface satisfies: the sparsity
    invariant, and every key names an in-bounds coordinate. *)
Definition well_formed (m : SparseMatrix) : bool :=
  sparsity_invariant m && forallb (fun kv => key_ok m (fst kv)) (elements m).

(** The object [setElement] leaves behind. *)
Definition updated (k : string) (v : Z) (o : object) : object :=
  if v =? 0 then obj_delete k o else obj_set k v o.

(** [getElement] as a function of the matrix alone. *)
Definition value_at (m : SparseMatrix) (r c : Z) : result Z :=
  match getElement (Int r) (Int c) m with
  | Ok (v, _) => Ok v
  | Throw e => Throw e
  end.

Definition sumZ {X} (l : list X) (f : X -> Z) : Z :=
  fold_right (fun x acc => f x + acc) 0 l.

(** The coordinate a key decodes to. *)
Definition krow (k : string) : Z :=
  match key_row k with Int r => r | NaN => 0 end.

Definition kcol (k : string) : Z :=
  match key_col k with Int c => c | NaN => 0 end.

(** The value of an entry if it sits at [(r, c)], zero otherwise. *)
Definition at_cell (r c : Z) (kv : string * Z) : Z :=
  if (krow (fst kv) =? r) && (kcol (fst kv) =? c) then snd kv else 0.

(** An action that, on a well-formed [R x C] matrix, succeeds, keeps the
    matrix well formed and adds [d r c] to every cell. *)
Definition adds (R C : Z) (act : M unit) (d : Z -> Z -> Z) : Prop :=
  forall m,
    well_formed m = true -> rows m = R -> cols m = C ->
    exists m',
      act m = Ok (tt, m') /\ rows m' = R /\ cols m' = C /\
      well_formed m' = true /\
      forall r c, cell m' r c = cell m r c + d r c.

(** What the pair of entries [a] of the left and [b] of the right operand
    adds to the cell [(r, c)] of the product. *)
Definition product_term (a b : string * Z) (r c : Z) : Z :=
  if (kcol (fst a) =? krow (fst b)) && (krow (fst a) =? r) && (kcol (fst b) =? c)
  then snd a * snd b else 0.

(** [doc] has the shape the loader accepts before it stores anything: at
    least three non-blank lines, a [rows=] and a [cols=] line declaring the
    positive dimensions [r] and [c], and entry lines that parse to [es]. *)
Definition document (doc : string) (r c : Z) (es : list element) : Prop :=
  exists rowsLine colsLine body,
    valid_lines doc = rowsLine :: colsLine :: body /\
    body <> [] /\
    startsWith "rows=" rowsLine = true /\
    _parseInt (substring_from 5 rowsLine) = Int r /\
    startsWith "cols=" colsLine = true /\
    _parseInt (substring_from 5 colsLine) = Int c /\
    0 < r /\ 0 < c /\
    map _parseElementLine body = map Some es.

(** The largest of zero and the members of a list. *)
Definition max0 (l : list Z) : Z := fold_right Z.max 0 l.

(** The dimensions [loadFromFile] settles on. *)
Definition final_rows (r c : Z) (es : list element) : Z :=
  if (r <=? max0 (map row es)) || (c <=? max0 (map col es))
  then max0 (map row es) + 1 else r.

Definition final_cols (r c : Z) (es : list element) : Z :=
  if (r <=? max0 (map row es)) || (c <=? max0 (map col es))
  then max0 (map col es) + 1 else c.

Definition wrong_format : exn := Error "Input file has wrong format".

(** The matrix the second pass starts from. *)
Definition resized (this : SparseMatrix) (r c : Z) (es : list element) : SparseMatrix :=
  mkSparseMatrix (final_rows r c es) (final_cols r c es)
    (elements this) (elementCount this).

Definition admissible (m : SparseMatrix) (e : element) : Prop :=
  value e <> 0 -> in_bounds m (row e) (col e) = true.

Definition empty_object_matrix : SparseMatrix := mkSparseMatrix 0 0 [] 0.

(** An entry line made of three tokens. *)
Definition line_of (tr tc tv : string) : string :=
  "(" +:+ tr +:+ "," +:+ tc +:+ "," +:+ tv +:+ ")".

(** [s] has a character that is not a digit, other than a minus sign in
    front. *)
Definition has_non_digit (s : string) : Prop :=
  exists pre x post,
    s = pre +:+ String x post /\ is_digit x = false /\
    (pre <> "" \/ x <> "-"%char).

Definition newline : string := String "010" "".

(** Lines, each closed by a line feed. *)
Definition join_lines (ls : list string) : string :=
  fold_right (fun l acc => l +:+ String "010" acc) "" ls.

(** The text of an entry line, without its line feed. *)
Definition entry_text (el : element) : string :=
  line_of (pretty (row el)) (" " +:+ pretty (col el)) (" " +:+ pretty (value el)).

Definition num_value (x : num) : Z :=
  match x with Int z => z | NaN => 0 end.

Definition element_of_entry (e : entry) : element :=
  mkElement (num_value (e_row e)) (num_value (e_col e)) (e_value e).

(** The entries [toString] prints, in the order it prints them. *)
Definition printed_elements (m : SparseMatrix) : list element :=
  map element_of_entry (sort compare_entries (map entry_of (elements m))).

(** The property an entry has under its key. *)
Definition kv_of (el : element) : string * Z :=
  (key (row el) (col el), value el).

Definition preserves (act : M unit) : Prop :=
  forall m m',
    sparsity_invariant m = true -> act m = Ok (tt, m') ->
    sparsity_invariant m' = true.

(** A text given line by line. *)
Definition text (ls : list string) : string := String.concat newline ls.


Definition growth_doc : string := text ["rows=2"; "cols=2"; "(5, 0, 7)"].


Definition malformed_doc : string := text ["rows=2"; "cols=2"; "(1,1,x)"].







Definition example_A : SparseMatrix :=
  mkSparseMatrix 2 2 [("0,0", 1); ("0,1", 2); ("1,0", 3); ("1,1", 4)] 4.

Definition example_B : SparseMatrix :=
  mkSparseMatrix 2 2 [("0,0", 1); ("1,1", 1)] 2.


(** ** Vocabulary of the further properties *)

(** How often [d] occurs in [s]. *)
Fixpoint count_char (d : ascii) (s : string) : nat :=
  match s with
  | EmptyString => O
  | String a rest => (if Ascii.eqb a d then 1 else 0) + count_char d rest
  end.

(** [pieces.join(d)] *)
Definition join (d : ascii) (pieces : list string) : string :=
  String.concat (String d "") pieces.

(** The first character of a string is not white space (there may be
    none). *)
Definition starts_clean (s : string) : bool :=
  match s with
  | EmptyString => true
  | String a _ => negb (is_space a)
  end.

(** The last character of a string is not white space (there may be
    none). *)
Fixpoint ends_clean (s : string) : bool :=
  match s with
  | EmptyString => true
  | String a EmptyString => negb (is_space a)
  | String _ rest => ends_clean rest
  end.

(** Two matrices that differ at most in the order of the properties of
    their objects. *)
Definition same_matrix (m m' : SparseMatrix) : Prop :=
  rows m = rows m' /\ cols m = cols m' /\
  elementCount m = elementCount m' /\
  Permutation (elements m) (elements m').

(** Row first, then column: the order [toString] prints entries in. *)
Definition lex_lt (a b : element) : Prop :=
  row a < row b \/ (row a = row b /\ col a < col b).

Definition lex_le (a b : element) : Prop :=
  row a < row b \/ (row a = row b /\ col a <= col b).

(** An entry whose coordinates are integers. *)
Definition int_entry (e : entry) : Prop :=
  exists r c, e_row e = Int r /\ e_col e = Int c.

(** The value the loader ends with at [(i, j)]: the value of the last entry
    line at that coordinate whose value is not zero, [start] if there is
    none. *)
Definition last_value (es : list element) (i j : Z) (start : Z) : Z :=
  fold_left
    (fun acc e =>
       if (row e =? i) && (col e =? j) && negb (value e =? 0)
       then value e else acc)
    es start.

(** ** The interactive driver ([src/code/src/index.js]) *)








(** [s.split(d)[0]]: what stands in front of the first [d]. *)
Fixpoint first_piece (d : ascii) (s : string) : string :=
  match s with
  | EmptyString => EmptyString
  | String a rest =>
      if Ascii.eqb a d then EmptyString else String a (first_piece d rest)
  end.

(** The [onData] handler of [CustomReadLine.question]: the new buffer and
    the answer the promise is resolved with, if it is. *)
Definition onData (buffer data : string) : string * option string :=
  let buffer := buffer +:+ data in
  if includes (String "010" "") buffer then
    let answer := first_piece "010" buffer in
    (substring_from (String.length answer + 1) buffer, Some answer)
  else (buffer, None).

(** * Properties *)

(** ** Strings *)

Section Strings.

Lemma str_app_cons (a : ascii) (s t : string) :
  String a s +:+ t = String a (s +:+ t).
Proof. reflexivity. Qed.

Lemma str_app_empty_l (s : string) : "" +:+ s = s.
Proof. reflexivity. Qed.

Lemma str_app_empty_r (s : string) : s +:+ "" = s.
Proof. induction s as [|a s IH]; [reflexivity|]. now rewrite ?str_app_cons, IH. Qed.

Lemma str_app_assoc (s t u : string) : (s +:+ t) +:+ u = s +:+ (t +:+ u).
Proof.
  induction s as [|a s IH]; [reflexivity|].
  now rewrite ?str_app_cons, IH.
Qed.

Lemma all_chars_app p s t :
  all_chars p (s +:+ t) = all_chars p s && all_chars p t.
Proof.
  induction s as [|a s IH]; [reflexivity|].
  rewrite ?str_app_cons; simpl. now rewrite IH, andb_assoc.
Qed.

Lemma all_chars_impl (p q : ascii -> bool) s :
  (forall a, p a = true -> q a = true) ->
  all_chars p s = true -> all_chars q s = true.
Proof.
  intros Hpq. induction s as [|a s IH]; simpl; [easy|].
  rewrite !andb_true_iff. intros [Ha Hs]. auto.
Qed.



Lemma endsWith_app c s : endsWith c (s +:+ String c "") = true.
Proof.
  induction s as [|a s IH]; simpl.
  - apply Ascii.eqb_refl.
  - rewrite ?str_app_cons; simpl. destruct (s +:+ String c "") eqn:E; [|exact IH].
    destruct s; discriminate.
Qed.

Lemma substring_0_app s t : substring 0 (String.length s) (s +:+ t) = s.
Proof.
  induction s as [|a s IH]; simpl.
  - now destruct t.
  - rewrite ?str_app_cons; simpl. now rewrite IH.
Qed.

Lemma str_length_app s t :
  String.length (s +:+ t) = (String.length s + String.length t)%nat.
Proof.
  induction s as [|a s IH]; [reflexivity|].
  rewrite ?str_app_cons; simpl. now rewrite IH.
Qed.


End Strings.

(** ** Splitting and trimming *)

Section SplitTrim.

Lemma split_go_app d s t :
  all_chars (not_char d) s = true ->
  split_go d (s +:+ String d t) = (s, _splitString t d).
Proof.
  unfold _splitString. induction s as [|a s IH]; simpl.
  - intros _. rewrite ?str_app_empty_l; simpl. rewrite Ascii.eqb_refl.
    now destruct (split_go d t).
  - rewrite andb_true_iff. unfold not_char at 1. intros [Ha Hs].
    apply negb_true_iff in Ha. rewrite ?str_app_cons; simpl.
    rewrite (IH Hs), Ha. now destruct (split_go d t).
Qed.

Lemma splitString_app d s t :
  all_chars (not_char d) s = true ->
  _splitString (s +:+ String d t) d = s :: _splitString t d.
Proof.
  intros Hs. unfold _splitString at 1. now rewrite (split_go_app d s t Hs).
Qed.

Lemma splitString_single d s :
  all_chars (not_char d) s = true -> _splitString s d = [s].
Proof.
  unfold _splitString. induction s as [|a s IH]; simpl; [easy|].
  rewrite andb_true_iff. unfold not_char at 1. intros [Ha Hs].
  apply negb_true_iff in Ha. rewrite Ha.
  specialize (IH Hs). destruct (split_go d s). now inversion IH.
Qed.






End SplitTrim.

(** ** Printing and reading integers *)

Section Numbers.

Lemma parse_digits_app s t acc :
  parse_digits (s +:+ t) acc =
  match parse_digits s acc with
  | Int r => parse_digits t r
  | NaN => NaN
  end.
Proof.
  revert acc. induction s as [|a s IH]; intros acc; simpl; [reflexivity|].
  destruct (is_digit a); [apply IH|reflexivity].
Qed.

Lemma parse_digits_all_digits s acc :
  all_chars is_digit s = true <-> parse_digits s acc <> NaN.
Proof.
  revert acc. induction s as [|a s IH]; intros acc; simpl; [easy|].
  destruct (is_digit a); simpl; [apply IH|easy].
Qed.

Lemma pretty_N_char_digit d :
  (d < 10)%N ->
  is_digit (pretty_N_char d) = true /\
  Z.of_nat (nat_of_ascii (pretty_N_char d)) - 48 = Z.of_N d.
Proof.
  intros Hd.
  assert (d = 0 \/ d = 1 \/ d = 2 \/ d = 3 \/ d = 4 \/ d = 5 \/ d = 6
          \/ d = 7 \/ d = 8 \/ d = 9)%N as Hcases by lia.
  repeat (destruct Hcases as [->|Hcases]; [now vm_compute|]).
  subst d. now vm_compute.
Qed.

Lemma pretty_N_go_app x s : pretty_N_go x s = pretty_N_go x "" +:+ s.
Proof.
  revert s. induction (N.lt_wf_0 x) as [x _ IH]. intros s.
  destruct (N.eq_dec x 0%N) as [->|Hx]; [reflexivity|].
  rewrite (pretty_N_go_step x s), (pretty_N_go_step x "") by lia.
  assert (x `div` 10 < x)%N as Hlt by (apply N.div_lt; lia).
  rewrite (IH _ Hlt (String _ s)), (IH _ Hlt (String _ "")).
  now rewrite str_app_assoc.
Qed.

Lemma parse_digits_pretty_N_go x :
  parse_digits (pretty_N_go x "") 0 = Int (Z.of_N x).
Proof.
  induction (N.lt_wf_0 x) as [x _ IH].
  destruct (N.eq_dec x 0%N) as [->|Hx]; [reflexivity|].
  rewrite pretty_N_go_step by lia. rewrite pretty_N_go_app.
  rewrite parse_digits_app, IH by (apply N.div_lt; lia).
  destruct (pretty_N_char_digit (x `mod` 10)) as [Hd Hv].
  { apply N.mod_lt. lia. }
  simpl. rewrite Hd, Hv. f_equal.
  pose proof (N.div_mod x 10). lia.
Qed.

Lemma pretty_N_go_digits x : all_chars is_digit (pretty_N_go x "") = true.
Proof.
  apply (parse_digits_all_digits _ 0). now rewrite parse_digits_pretty_N_go.
Qed.

Lemma pretty_pos_eq (p : positive) : pretty (Z.pos p) = pretty_N_go (N.pos p) "".
Proof. reflexivity. Qed.

Lemma pretty_neg_eq (p : positive) :
  pretty (Z.neg p) = String "-" (pretty_N_go (N.pos p) "").
Proof. reflexivity. Qed.

(** Reading back what a template literal printed. *)
Lemma parseInt_pretty (z : Z) : _parseInt (pretty z) = Int z.
Proof.
  destruct z as [|p|p].
  - reflexivity.
  - rewrite pretty_pos_eq.
    pose proof (parse_digits_pretty_N_go (N.pos p)) as Hp.
    pose proof (pretty_N_go_digits (N.pos p)) as Hd.
    destruct (pretty_N_go (N.pos p) "") as [|a s] eqn:E; [discriminate Hp|].
    unfold _parseInt. simpl in Hd. apply andb_true_iff in Hd as [Ha _].
    destruct (Ascii.eqb_spec a "-") as [->|_]; [discriminate Ha|].
    exact Hp.
  - rewrite pretty_neg_eq. unfold _parseInt.
    rewrite Ascii.eqb_refl, parse_digits_pretty_N_go. reflexivity.
Qed.

Lemma pretty_numeral (z : Z) : all_chars is_numeral_char (pretty z) = true.
Proof.
  assert (forall x, all_chars is_numeral_char (pretty_N_go x "") = true) as H.
  { intros x. apply (all_chars_impl is_digit); [|apply pretty_N_go_digits].
    intros a Ha. unfold is_numeral_char. now rewrite Ha. }
  destruct z as [|p|p].
  - reflexivity.
  - rewrite pretty_pos_eq. apply H.
  - rewrite pretty_neg_eq. simpl. apply H.
Qed.

(** A numeral has no character outside the digits and the minus sign. *)
Lemma pretty_all_chars (p : ascii -> bool) (z : Z) :
  (forall a, is_numeral_char a = true -> p a = true) ->
  all_chars p (pretty z) = true.
Proof.
  intros Hp. apply (all_chars_impl is_numeral_char); [exact Hp|].
  apply pretty_numeral.
Qed.

Lemma numeral_not_char (d : ascii) :
  is_numeral_char d = false ->
  forall a, is_numeral_char a = true -> not_char d a = true.
Proof.
  intros Hd a Ha. unfold not_char.
  destruct (Ascii.eqb_spec a d) as [->|_]; [congruence|reflexivity].
Qed.


Lemma pretty_no_comma (z : Z) : all_chars (not_char ",") (pretty z) = true.
Proof. apply pretty_all_chars, numeral_not_char. reflexivity. Qed.



End Numbers.

(** ** Keys *)

Section Keys.

Lemma key_eq r c : key r c = pretty r +:+ String "," (pretty c).
Proof. reflexivity. Qed.

Lemma splitString_key r c : _splitString (key r c) "," = [pretty r; pretty c].
Proof.
  rewrite key_eq, splitString_app by apply pretty_no_comma.
  f_equal. apply splitString_single, pretty_no_comma.
Qed.

Lemma key_row_key r c : key_row (key r c) = Int r.
Proof.
  unfold key_row. rewrite splitString_key. simpl. apply parseInt_pretty.
Qed.

Lemma key_col_key r c : key_col (key r c) = Int c.
Proof.
  unfold key_col. rewrite splitString_key. simpl. apply parseInt_pretty.
Qed.

Lemma key_inj r c r' c' : key r c = key r' c' -> r = r' /\ c = c'.
Proof.
  intros H.
  pose proof (key_row_key r c) as Hr. pose proof (key_col_key r c) as Hc.
  rewrite H, key_row_key in Hr. rewrite H, key_col_key in Hc.
  split; congruence.
Qed.

Lemma key_eqb r c r' c' :
  String.eqb (key r c) (key r' c') = (r =? r') && (c =? c').
Proof.
  destruct (String.eqb_spec (key r c) (key r' c')) as [H|H].
  - apply key_inj in H as [-> ->]. now rewrite !Z.eqb_refl.
  - symmetry. apply not_true_is_false. intros E.
    apply andb_true_iff in E as [E1 E2].
    apply Z.eqb_eq in E1, E2. now subst.
Qed.

End Keys.

(** ** Objects *)

Section Objects.

Lemma obj_get_set_eq k v o : obj_get k (obj_set k v o) = Some v.
Proof.
  induction o as [|[k' w] o IH]; simpl.
  - now rewrite String.eqb_refl.
  - destruct (String.eqb k' k) eqn:E; simpl; now rewrite E.
Qed.

Lemma obj_get_set_ne k k' v o :
  k <> k' -> obj_get k' (obj_set k v o) = obj_get k' o.
Proof.
  intros Hne. induction o as [|[k0 w] o IH]; simpl.
  - apply String.eqb_neq in Hne. now rewrite Hne.
  - destruct (String.eqb k0 k) eqn:E; simpl.
    + apply String.eqb_eq in E. subst k0.
      apply String.eqb_neq in Hne. now rewrite Hne.
    + now rewrite IH.
Qed.

Lemma obj_get_None k o : obj_get k o = None <-> ~ In k (keys o).
Proof.
  induction o as [|[k0 w] o IH]; simpl; [tauto|].
  destruct (String.eqb_spec k0 k) as [->|Hne].
  - split; [discriminate|]. intros H. exfalso. apply H. now left.
  - rewrite IH. tauto.
Qed.

Lemma obj_get_In k v o : obj_get k o = Some v -> In (k, v) o.
Proof.
  induction o as [|[k0 w] o IH]; simpl; [discriminate|].
  destruct (String.eqb_spec k0 k) as [->|Hne].
  - intros [= ->]. now left.
  - intros H. right. auto.
Qed.

Lemma In_obj_get k v o : NoDup (keys o) -> In (k, v) o -> obj_get k o = Some v.
Proof.
  induction o as [|[k0 w] o IH]; simpl; [easy|].
  intros Hnd [H|H].
  - injection H as -> ->. now rewrite String.eqb_refl.
  - apply NoDup_cons in Hnd as [Hk0 Hnd].
    destruct (String.eqb_spec k0 k) as [->|Hne]; [|auto].
    exfalso. apply Hk0. apply list_elem_of_In.
    change k with (fst (k, v)). now apply in_map.
Qed.

Lemma keys_set_absent k v o :
  obj_get k o = None -> obj_set k v o = (o ++ [(k, v)])%list.
Proof.
  induction o as [|[k0 w] o IH]; simpl; [reflexivity|].
  destruct (String.eqb k0 k); [discriminate|]. intros H. now rewrite IH.
Qed.

Lemma keys_set_present k v w o :
  obj_get k o = Some w -> keys (obj_set k v o) = keys o.
Proof.
  induction o as [|[k0 u] o IH]; simpl; [discriminate|].
  destruct (String.eqb k0 k); [reflexivity|]. intros H. simpl.
  f_equal. now apply IH.
Qed.

Lemma NoDup_set k v o : NoDup (keys o) -> NoDup (keys (obj_set k v o)).
Proof.
  intros Hnd. destruct (obj_get k o) as [w|] eqn:E.
  - now rewrite (keys_set_present k v w o E).
  - rewrite (keys_set_absent k v o E). unfold keys. rewrite map_app. simpl.
    apply NoDup_app. split; [exact Hnd|]. split.
    + intros x Hx Hk. apply list_elem_of_In in Hk. simpl in Hk.
      destruct Hk as [<-|[]]. apply obj_get_None in E. apply E.
      now apply list_elem_of_In.
    + apply NoDup_singleton.
Qed.

Lemma In_delete kv k o : In kv (obj_delete k o) -> In kv o.
Proof.
  induction o as [|[k0 w] o IH]; simpl; [easy|].
  destruct (String.eqb k0 k); simpl; tauto.
Qed.

Lemma In_keys_delete k' k o : In k' (keys (obj_delete k o)) -> In k' (keys o).
Proof.
  induction o as [|[k0 w] o IH]; simpl; [easy|].
  destruct (String.eqb k0 k); simpl; tauto.
Qed.

Lemma NoDup_delete k o : NoDup (keys o) -> NoDup (keys (obj_delete k o)).
Proof.
  induction o as [|[k0 w] o IH]; simpl; [easy|].
  intros Hnd. apply NoDup_cons in Hnd as [Hk0 Hnd].
  destruct (String.eqb k0 k); simpl; [exact Hnd|].
  apply NoDup_cons. split; [|auto].
  intros H. apply Hk0. apply list_elem_of_In. apply list_elem_of_In in H.
  eapply In_keys_delete, H.
Qed.

Lemma obj_get_delete_eq k o :
  NoDup (keys o) -> obj_get k (obj_delete k o) = None.
Proof.
  induction o as [|[k0 w] o IH]; simpl; [easy|].
  intros Hnd. apply NoDup_cons in Hnd as [Hk0 Hnd].
  destruct (String.eqb_spec k0 k) as [->|Hne].
  - apply obj_get_None. intros H. apply Hk0. now apply list_elem_of_In.
  - simpl. destruct (String.eqb_spec k0 k); [contradiction|auto].
Qed.

Lemma obj_get_delete_ne k k' o :
  k <> k' -> obj_get k' (obj_delete k o) = obj_get k' o.
Proof.
  intros Hne. induction o as [|[k0 w] o IH]; simpl; [reflexivity|].
  destruct (String.eqb_spec k0 k) as [->|Hk0].
  - apply String.eqb_neq in Hne. now rewrite Hne.
  - simpl. now rewrite IH.
Qed.

Lemma length_set k v o :
  List.length (obj_set k v o) =
  match obj_get k o with
  | Some _ => List.length o
  | None => S (List.length o)
  end.
Proof.
  induction o as [|[k0 w] o IH]; simpl; [reflexivity|].
  destruct (String.eqb k0 k); simpl; [reflexivity|].
  rewrite IH. now destruct (obj_get k o).
Qed.

Lemma length_delete k w o :
  obj_get k o = Some w -> S (List.length (obj_delete k o)) = List.length o.
Proof.
  induction o as [|[k0 u] o IH]; simpl; [discriminate|].
  destruct (String.eqb k0 k); simpl; [reflexivity|].
  intros H. now rewrite IH.
Qed.

Lemma In_set kv k v o : In kv (obj_set k v o) -> kv = (k, v) \/ In kv o.
Proof.
  induction o as [|[k0 w] o IH]; simpl.
  - intros [<-|[]]. now left.
  - destruct (String.eqb_spec k0 k) as [->|Hne]; simpl.
    + intros [<-|H]; auto.
    + intros [<-|H]; auto. destruct (IH H); auto.
Qed.

End Objects.

(** ** Invariants of a matrix *)

Section Invariants.

Lemma distinct_NoDup ks : distinct ks = true <-> NoDup ks.
Proof.
  induction ks as [|k ks IH]; simpl.
  - split; [intros _; apply NoDup_nil_2|easy].
  - rewrite andb_true_iff, negb_true_iff, IH, NoDup_cons.
    assert (existsb (String.eqb k) ks = false <-> k ∉ ks) as ->; [|tauto].
    rewrite <- not_true_iff_false, existsb_exists, list_elem_of_In.
    split.
    + intros H Hin. apply H. exists k. now rewrite String.eqb_refl.
    + intros H [x [Hx E]]. apply String.eqb_eq in E. now subst.
Qed.

Lemma key_ok_iff m k :
  key_ok m k = true <-> exists r c, in_bounds m r c = true /\ k = key r c.
Proof.
  unfold key_ok. split.
  - destruct (key_row k) as [|r]; [discriminate|].
    destruct (key_col k) as [|c]; [discriminate|].
    rewrite andb_true_iff, String.eqb_eq. intros [Hb Hk]. now exists r, c.
  - intros (r & c & Hb & ->). rewrite key_row_key, key_col_key, Hb.
    now rewrite String.eqb_refl.
Qed.

Lemma out_of_bounds_Int m r c :
  out_of_bounds m (Int r) (Int c) = negb (in_bounds m r c).
Proof.
  unfold out_of_bounds, in_bounds. simpl.
  destruct (Z.ltb_spec r 0), (Z.leb_spec 0 r), (Z.leb_spec (rows m) r),
    (Z.ltb_spec r (rows m)), (Z.ltb_spec c 0), (Z.leb_spec 0 c),
    (Z.leb_spec (cols m) c), (Z.ltb_spec c (cols m));
    simpl; try reflexivity; lia.
Qed.

Lemma in_bounds_iff m r c :
  in_bounds m r c = true <-> 0 <= r < rows m /\ 0 <= c < cols m.
Proof. unfold in_bounds. rewrite !andb_true_iff. lia. Qed.

Lemma getElement_in m r c :
  in_bounds m r c = true -> getElement (Int r) (Int c) m = Ok (cell m r c, m).
Proof.
  intros Hb. unfold getElement. now rewrite out_of_bounds_Int, Hb.
Qed.

Lemma getElement_out m r c :
  in_bounds m r c = false ->
  getElement (Int r) (Int c) m =
  Throw (Error (out_of_bounds_message m (Int r) (Int c))).
Proof.
  intros Hb. unfold getElement. now rewrite out_of_bounds_Int, Hb.
Qed.

Lemma setElement_out m r c v :
  in_bounds m r c = false ->
  setElement (Int r) (Int c) v m =
  Throw (Error (out_of_bounds_message m (Int r) (Int c))).
Proof.
  intros Hb. unfold setElement. now rewrite out_of_bounds_Int, Hb.
Qed.

Lemma obj_delete_absent k o : obj_get k o = None -> obj_delete k o = o.
Proof.
  induction o as [|[k0 w] o IH]; simpl; [easy|].
  destruct (String.eqb k0 k); [discriminate|]. intros H. now rewrite IH.
Qed.

Lemma sparsity_invariant_iff m :
  sparsity_invariant m = true <->
  NoDup (keys (elements m)) /\
  Forall (fun kv => snd kv <> 0) (elements m) /\
  elementCount m = Z.of_nat (List.length (elements m)).
Proof.
  unfold sparsity_invariant.
  rewrite !andb_true_iff, Z.eqb_eq, distinct_NoDup, forallb_forall.
  rewrite List.Forall_forall.
  assert ((forall x : string * Z, In x (elements m) -> negb (snd x =? 0) = true)
          <-> (forall x : string * Z, In x (elements m) -> snd x <> 0)) as ->.
  { split; intros H x Hx; specialize (H x Hx).
    - apply negb_true_iff, Z.eqb_neq in H. exact H.
    - now apply negb_true_iff, Z.eqb_neq. }
  tauto.
Qed.

Lemma updated_NoDup k v o : NoDup (keys o) -> NoDup (keys (updated k v o)).
Proof.
  unfold updated. destruct (v =? 0); [apply NoDup_delete|apply NoDup_set].
Qed.

Lemma updated_In kv k v o :
  In kv (updated k v o) -> (kv = (k, v) /\ v <> 0) \/ In kv o.
Proof.
  unfold updated. destruct (Z.eqb_spec v 0) as [->|Hv].
  - intros H. right. eapply In_delete, H.
  - intros H. apply In_set in H as [->|H]; auto.
Qed.

Lemma updated_get k v o k' :
  NoDup (keys o) ->
  obj_get k' (updated k v o) =
  if String.eqb k k' then (if v =? 0 then None else Some v) else obj_get k' o.
Proof.
  intros Hnd. unfold updated.
  destruct (String.eqb_spec k k') as [<-|Hne]; destruct (v =? 0).
  - now apply obj_get_delete_eq.
  - apply obj_get_set_eq.
  - now apply obj_get_delete_ne.
  - now apply obj_get_set_ne.
Qed.

(** [setElement] succeeds exactly on in-bounds coordinates, keeps the
    dimensions and updates the object at the key. *)
Lemma setElement_Ok row col v m :
  out_of_bounds m row col = false ->
  exists n,
    setElement row col v m =
    Ok (tt, mkSparseMatrix (rows m) (cols m)
              (updated (_createKey row col) v (elements m)) n) /\
    (elementCount m = Z.of_nat (List.length (elements m)) ->
     n = Z.of_nat (List.length (updated (_createKey row col) v (elements m)))).
Proof.
  intros Hb. unfold setElement, updated. rewrite Hb.
  set (k := _createKey row col).
  destruct (v =? 0) eqn:Ev.
  - destruct (obj_get k (elements m)) as [w|] eqn:Eg.
    + eexists. split; [reflexivity|]. intros Hn.
      pose proof (length_delete _ _ _ Eg). lia.
    + exists (elementCount m). rewrite (obj_delete_absent _ _ Eg). split.
      * now destruct m.
      * easy.
  - eexists. split; [reflexivity|]. intros Hn.
    rewrite length_set. destruct (obj_get k (elements m)); lia.
Qed.

Lemma setElement_Throw row col v m :
  out_of_bounds m row col = true ->
  setElement row col v m = Throw (Error (out_of_bounds_message m row col)).
Proof. intros Hb. unfold setElement. now rewrite Hb. Qed.

Lemma setElement_sparsity row col v m m' :
  sparsity_invariant m = true ->
  setElement row col v m = Ok (tt, m') ->
  sparsity_invariant m' = true /\ rows m' = rows m /\ cols m' = cols m /\
  elements m' = updated (_createKey row col) v (elements m).
Proof.
  intros Hinv Hset.
  destruct (out_of_bounds m row col) eqn:Hb.
  { rewrite setElement_Throw in Hset by exact Hb. discriminate. }
  destruct (setElement_Ok row col v m Hb) as (n & Hn & Hcount).
  rewrite Hn in Hset. injection Hset as <-. simpl.
  apply sparsity_invariant_iff in Hinv as (Hnd & Hnz & Hc).
  split; [|easy]. apply sparsity_invariant_iff. simpl.
  split; [now apply updated_NoDup|]. split; [|auto].
  apply List.Forall_forall. intros kv Hkv.
  apply updated_In in Hkv as [[-> Hv]|Hkv]; [exact Hv|].
  rewrite List.Forall_forall in Hnz. auto.
Qed.

Lemma well_formed_iff m :
  well_formed m = true <->
  sparsity_invariant m = true /\
  Forall (fun kv => key_ok m (fst kv) = true) (elements m).
Proof.
  unfold well_formed. rewrite andb_true_iff, forallb_forall.
  now rewrite List.Forall_forall.
Qed.

Lemma key_ok_dims m m' k :
  rows m' = rows m -> cols m' = cols m -> key_ok m' k = key_ok m k.
Proof.
  intros Hr Hc. unfold key_ok, in_bounds. now rewrite Hr, Hc.
Qed.

(** [setElement] at an in-bounds integer coordinate of a well-formed
    matrix. *)
Lemma setElement_spec m r c v :
  well_formed m = true -> in_bounds m r c = true ->
  exists m',
    setElement (Int r) (Int c) v m = Ok (tt, m') /\
    rows m' = rows m /\ cols m' = cols m /\ well_formed m' = true /\
    forall r' c',
      cell m' r' c' = if (r =? r') && (c =? c') then v else cell m r' c'.
Proof.
  intros Hwf Hb. apply well_formed_iff in Hwf as [Hinv Hkeys].
  assert (out_of_bounds m (Int r) (Int c) = false) as Hout.
  { now rewrite out_of_bounds_Int, Hb. }
  destruct (setElement_Ok (Int r) (Int c) v m Hout) as (n & Hset & _).
  exists (mkSparseMatrix (rows m) (cols m)
            (updated (key r c) v (elements m)) n).
  split; [exact Hset|]. split; [reflexivity|]. split; [reflexivity|].
  destruct (setElement_sparsity _ _ _ _ _ Hinv Hset) as (Hinv' & _).
  split.
  - apply well_formed_iff. split; [exact Hinv'|]. simpl.
    apply List.Forall_forall. intros kv Hkv.
    rewrite (key_ok_dims m) by reflexivity.
    apply updated_In in Hkv as [[-> _]|Hkv].
    + apply key_ok_iff. now exists r, c.
    + rewrite List.Forall_forall in Hkeys. auto.
  - intros r' c'. unfold cell. simpl.
    apply sparsity_invariant_iff in Hinv as (Hnd & _).
    rewrite updated_get by exact Hnd. rewrite key_eqb.
    destruct ((r =? r') && (c =? c')); [|reflexivity].
    destruct (Z.eqb_spec v 0); congruence.
Qed.

End Invariants.

(** ** Finite sums *)

Section Sums.

Context {X : Type}.

Lemma sumZ_cons (x : X) l f : sumZ (x :: l) f = f x + sumZ l f.
Proof. reflexivity. Qed.

Lemma sumZ_ext (l : list X) f g :
  (forall x, In x l -> f x = g x) -> sumZ l f = sumZ l g.
Proof.
  induction l as [|x l IH]; intros H; [reflexivity|].
  rewrite !sumZ_cons, IH, (H x); [reflexivity|now left|].
  intros y Hy. apply H. now right.
Qed.

Lemma sumZ_zero (l : list X) f : (forall x, In x l -> f x = 0) -> sumZ l f = 0.
Proof.
  induction l as [|x l IH]; intros H; [reflexivity|].
  rewrite sumZ_cons, IH, (H x); [reflexivity|now left|].
  intros y Hy. apply H. now right.
Qed.

Lemma sumZ_plus (l : list X) f g :
  sumZ l (fun x => f x + g x) = sumZ l f + sumZ l g.
Proof.
  induction l as [|x l IH]; [reflexivity|]. rewrite !sumZ_cons, IH. lia.
Qed.

Lemma sumZ_scale_l (l : list X) a f :
  sumZ l (fun x => a * f x) = a * sumZ l f.
Proof.
  induction l as [|x l IH]; [simpl; lia|]. rewrite !sumZ_cons, IH. lia.
Qed.

Lemma sumZ_scale_r (l : list X) a f :
  sumZ l (fun x => f x * a) = sumZ l f * a.
Proof.
  induction l as [|x l IH]; [simpl; lia|]. rewrite !sumZ_cons, IH. lia.
Qed.

End Sums.

Lemma sumZ_swap {X Y} (l : list X) (l' : list Y) (f : X -> Y -> Z) :
  sumZ l (fun x => sumZ l' (fun y => f x y)) =
  sumZ l' (fun y => sumZ l (fun x => f x y)).
Proof.
  induction l as [|x l IH].
  - simpl. symmetry. now apply sumZ_zero.
  - rewrite sumZ_cons, IH, <- sumZ_plus. reflexivity.
Qed.

(** The one term an indicator picks out of a range. *)
Lemma sumZ_pick_list (l : list Z) (k0 : Z) (g : Z -> Z) :
  NoDup l -> In k0 l ->
  sumZ l (fun k => if k0 =? k then g k else 0) = g k0.
Proof.
  induction l as [|x l IH]; intros Hnd Hin; [destruct Hin|].
  apply NoDup_cons in Hnd as [Hx Hnd]. rewrite sumZ_cons.
  destruct (Z.eqb_spec k0 x) as [->|Hne].
  - rewrite sumZ_zero; [lia|]. intros y Hy.
    destruct (Z.eqb_spec x y) as [->|_]; [|reflexivity].
    exfalso. apply Hx. now apply list_elem_of_In.
  - destruct Hin as [->|Hin]; [contradiction|]. now rewrite IH.
Qed.

Lemma sumZ_pick (n k0 : Z) (g : Z -> Z) :
  0 <= k0 < n ->
  sumZ (seqZ 0 n) (fun k => if k0 =? k then g k else 0) = g k0.
Proof.
  intros Hk. apply sumZ_pick_list; [apply NoDup_seqZ|].
  apply list_elem_of_In, elem_of_seqZ. lia.
Qed.

(** ** Loops over the stored entries *)

Section Loops.

Variables R C : Z.

Lemma krow_key r c : krow (key r c) = r.
Proof. unfold krow. now rewrite key_row_key. Qed.

Lemma kcol_key r c : kcol (key r c) = c.
Proof. unfold kcol. now rewrite key_col_key. Qed.

Lemma key_ok_decode m k :
  key_ok m k = true ->
  key_row k = Int (krow k) /\ key_col k = Int (kcol k) /\
  k = key (krow k) (kcol k) /\ in_bounds m (krow k) (kcol k) = true.
Proof.
  intros H. apply key_ok_iff in H as (r & c & Hb & ->).
  now rewrite krow_key, kcol_key, key_row_key, key_col_key.
Qed.

Lemma key_ok_eqb m k r c :
  key_ok m k = true ->
  String.eqb k (key r c) = (krow k =? r) && (kcol k =? c).
Proof.
  intros H. apply key_ok_iff in H as (r0 & c0 & _ & ->).
  now rewrite krow_key, kcol_key, key_eqb.
Qed.

Lemma well_formed_keys m kv :
  well_formed m = true -> In kv (elements m) -> key_ok m (fst kv) = true.
Proof.
  intros Hwf Hin. apply well_formed_iff in Hwf as [_ Hk].
  rewrite List.Forall_forall in Hk. auto.
Qed.

Lemma well_formed_NoDup m :
  well_formed m = true -> NoDup (keys (elements m)).
Proof.
  intros Hwf. apply well_formed_iff in Hwf as [Hinv _].
  now apply sparsity_invariant_iff in Hinv.
Qed.

Lemma adds_ret : adds R C (ret tt) (fun _ _ => 0).
Proof.
  intros m Hwf Hr Hc. exists m. repeat split; try assumption.
  intros. lia.
Qed.

Lemma adds_ext act d d' :
  (forall r c, d r c = d' r c) -> adds R C act d -> adds R C act d'.
Proof.
  intros Hd H m Hwf Hr Hc. destruct (H m Hwf Hr Hc) as (m' & ? & ? & ? & ? & Hcell).
  exists m'. repeat split; try assumption. intros. now rewrite <- Hd.
Qed.

Lemma adds_bind act1 act2 d1 d2 :
  adds R C act1 d1 -> adds R C act2 d2 ->
  adds R C (let* _ := act1 in act2) (fun r c => d1 r c + d2 r c).
Proof.
  intros H1 H2 m Hwf Hr Hc.
  destruct (H1 m Hwf Hr Hc) as (m1 & E1 & Hr1 & Hc1 & Hwf1 & Hcell1).
  destruct (H2 m1 Hwf1 Hr1 Hc1) as (m2 & E2 & Hr2 & Hc2 & Hwf2 & Hcell2).
  exists m2. unfold bind. rewrite E1, E2. repeat split; try assumption.
  intros. rewrite Hcell2, Hcell1. lia.
Qed.

Lemma adds_for_each {X} (l : list X) (body : X -> M unit)
    (delta : X -> Z -> Z -> Z) :
  (forall x, In x l -> adds R C (body x) (delta x)) ->
  adds R C (for_each l body) (fun r c => sumZ l (fun x => delta x r c)).
Proof.
  induction l as [|x l IH]; intros H.
  - apply adds_ret.
  - simpl. apply adds_bind.
    + apply H. now left.
    + apply IH. intros y Hy. apply H. now right.
Qed.

(** [currentValue = getElement(r0, c0); setElement(r0, c0, f(currentValue))]
    when [f] adds [p]. *)
Lemma adds_get_set r0 c0 (f : Z -> Z) p :
  0 <= r0 < R -> 0 <= c0 < C -> (forall cur, f cur = cur + p) ->
  adds R C (let* currentValue := getElement (Int r0) (Int c0) in
            setElement (Int r0) (Int c0) (f currentValue))
       (fun r c => if (r0 =? r) && (c0 =? c) then p else 0).
Proof.
  intros Hr0 Hc0 Hf m Hwf Hr Hc.
  assert (in_bounds m r0 c0 = true) as Hb.
  { apply in_bounds_iff. lia. }
  unfold bind. rewrite (getElement_in m r0 c0 Hb).
  destruct (setElement_spec m r0 c0 (f (cell m r0 c0)) Hwf Hb)
    as (m' & E & Hr' & Hc' & Hwf' & Hcell).
  exists m'. rewrite E. repeat split; try congruence.
  intros r c. rewrite Hcell, Hf.
  destruct (Z.eqb_spec r0 r) as [->|_]; simpl; [|lia].
  destruct (Z.eqb_spec c0 c) as [->|_]; simpl; lia.
Qed.

(** A cell is the sum of the entries that sit at it. *)
Lemma cell_sum m r c :
  well_formed m = true -> cell m r c = sumZ (elements m) (at_cell r c).
Proof.
  intros Hwf. pose proof (well_formed_NoDup m Hwf) as Hnd.
  assert (forall kv, In kv (elements m) -> key_ok m (fst kv) = true) as Hk.
  { intros kv. now apply well_formed_keys. }
  unfold cell. revert Hnd Hk. generalize (elements m) as o.
  induction o as [|[k v] o IH]; intros Hnd Hk; [reflexivity|].
  simpl in Hnd. apply NoDup_cons in Hnd as [Hko Hnd].
  rewrite sumZ_cons. simpl obj_get.
  destruct (key_ok_decode m k (Hk (k, v) (or_introl eq_refl)))
    as (_ & _ & Ek & _).
  unfold at_cell at 1. simpl fst. simpl snd.
  rewrite (key_ok_eqb m k r c (Hk (k, v) (or_introl eq_refl))).
  destruct ((krow k =? r) && (kcol k =? c)) eqn:E.
  - rewrite sumZ_zero; [lia|]. intros [k' v'] Hin.
    unfold at_cell. simpl.
    destruct ((krow k' =? r) && (kcol k' =? c)) eqn:E'; [|reflexivity].
    exfalso. apply Hko. apply list_elem_of_In.
    destruct (key_ok_decode m k' (Hk (k', v') (or_intror Hin)))
      as (_ & _ & Ek' & _).
    apply andb_true_iff in E as [E1 E2]. apply andb_true_iff in E' as [E3 E4].
    apply Z.eqb_eq in E1, E2, E3, E4.
    assert (k = k') as -> by (rewrite Ek, Ek'; congruence).
    change k' with (fst (k', v')). now apply in_map.
  - rewrite IH; [lia|exact Hnd|]. intros kv Hin. apply Hk. now right.
Qed.

End Loops.

(** ** Addition, subtraction and multiplication *)

Section Arithmetic.

Lemma cell_zero_matrix R C r c : cell (zero_matrix R C) r c = 0.
Proof. reflexivity. Qed.

(** The first loop of [add] and [subtract]. *)
Lemma copy_elements_spec (src : object) m0 :
  well_formed m0 = true ->
  (forall kv, In kv src -> key_ok m0 (fst kv) = true) ->
  NoDup (keys src) ->
  exists m1,
    copy_elements src m0 = Ok (tt, m1) /\
    rows m1 = rows m0 /\ cols m1 = cols m0 /\ well_formed m1 = true /\
    forall r c,
      cell m1 r c =
      match obj_get (key r c) src with
      | Some v => v
      | None => cell m0 r c
      end.
Proof.
  revert m0. induction src as [|[k v] src IH]; intros m0 Hwf Hk Hnd.
  - exists m0. repeat split; try assumption; reflexivity.
  - simpl in Hnd. apply NoDup_cons in Hnd as [Hko Hnd].
    destruct (key_ok_decode m0 k (Hk (k, v) (or_introl eq_refl)))
      as (Er & Ec & Ek & Hb).
    destruct (setElement_spec m0 (krow k) (kcol k) v Hwf Hb)
      as (m' & E & Hr' & Hc' & Hwf' & Hcell').
    destruct (IH m' Hwf') as (m1 & E1 & Hr1 & Hc1 & Hwf1 & Hcell1).
    { intros kv Hin. rewrite (key_ok_dims m0) by assumption.
      apply Hk. now right. }
    { exact Hnd. }
    exists m1. unfold copy_elements in *. simpl. unfold bind.
    rewrite Er, Ec, E, E1. repeat split; try congruence.
    intros r c. rewrite Hcell1, Hcell'. simpl obj_get.
    rewrite (key_ok_eqb m0 k r c (Hk (k, v) (or_introl eq_refl))).
    destruct ((krow k =? r) && (kcol k =? c)) eqn:Eq; [|reflexivity].
    apply andb_true_iff in Eq as [E3 E4]. apply Z.eqb_eq in E3, E4.
    subst r c. rewrite <- Ek.
    assert (obj_get k src = None) as ->; [|reflexivity].
    apply obj_get_None. intros H. apply Hko. now apply list_elem_of_In.
Qed.

(** The second loop of [add] and [subtract]. *)
Lemma combine_elements_adds R C (op : Z -> Z -> Z) (sign : Z) (src : object) :
  (forall cur v, op cur v = cur + sign * v) ->
  (forall kv, In kv src ->
     exists r c, fst kv = key r c /\ 0 <= r < R /\ 0 <= c < C) ->
  adds R C (combine_elements op src)
       (fun r c => sign * sumZ src (at_cell r c)).
Proof.
  intros Hop Hk. unfold combine_elements.
  eapply adds_ext; [|apply adds_for_each with
    (delta := fun kv r c => sign * at_cell r c kv)].
  - intros r c. simpl. apply sumZ_scale_l.
  - intros [k v] Hin. destruct (Hk _ Hin) as (r0 & c0 & Ek & Hr0 & Hc0).
    simpl in Ek. subst k. rewrite key_row_key, key_col_key.
    eapply adds_ext; [|apply (adds_get_set R C r0 c0 (fun cur => op cur v)
                               (sign * v) Hr0 Hc0)].
    + intros r c. unfold at_cell. simpl. rewrite krow_key, kcol_key.
      destruct ((r0 =? r) && (c0 =? c)); lia.
    + intros cur. apply Hop.
Qed.

Lemma well_formed_coords m kv :
  well_formed m = true -> In kv (elements m) ->
  exists r c, fst kv = key r c /\ 0 <= r < rows m /\ 0 <= c < cols m.
Proof.
  intros Hwf Hin. pose proof (well_formed_keys m kv Hwf Hin) as Hk.
  apply key_ok_iff in Hk as (r & c & Hb & Ek).
  apply in_bounds_iff in Hb. now exists r, c.
Qed.

Lemma linear_spec (op : Z -> Z -> Z) (sign : Z) A B :
  (forall cur v, op cur v = cur + sign * v) ->
  well_formed A = true -> well_formed B = true ->
  rows A = rows B -> cols A = cols B ->
  exists res,
    run (let* _ := copy_elements (elements A) in
         combine_elements op (elements B))
        (zero_matrix (rows A) (cols A)) = Ok res /\
    rows res = rows A /\ cols res = cols A /\ well_formed res = true /\
    forall r c, cell res r c = cell A r c + sign * cell B r c.
Proof.
  intros Hop HA HB Hr Hc.
  destruct (copy_elements_spec (elements A) (zero_matrix (rows A) (cols A)))
    as (m1 & E1 & Hr1 & Hc1 & Hwf1 & Hcell1).
  { reflexivity. }
  { intros kv Hin. rewrite (key_ok_dims A) by reflexivity.
    now apply well_formed_keys. }
  { now apply well_formed_NoDup. }
  destruct (combine_elements_adds (rows A) (cols A) op sign (elements B) Hop)
    with (m := m1) as (m2 & E2 & Hr2 & Hc2 & Hwf2 & Hcell2); try assumption.
  { intros kv Hin. rewrite Hr, Hc. now apply well_formed_coords. }
  exists m2. unfold run, bind. rewrite E1, E2.
  repeat split; try assumption.
  intros r c. rewrite Hcell2, Hcell1, <- (cell_sum B r c HB).
  reflexivity.
Qed.

Lemma add_spec A B :
  well_formed A = true -> well_formed B = true ->
  rows A = rows B -> cols A = cols B ->
  exists res,
    add A B = Ok res /\
    rows res = rows A /\ cols res = cols A /\ well_formed res = true /\
    forall r c, cell res r c = cell A r c + cell B r c.
Proof.
  intros HA HB Hr Hc. unfold add. rewrite Hr, Hc, !Z.eqb_refl. simpl.
  rewrite <- Hr, <- Hc.
  destruct (linear_spec Z.add 1 A B) as (res & E & ? & ? & ? & Hcell);
    try assumption; [intros; lia|].
  exists res. repeat split; try assumption; intros; rewrite Hcell; lia.
Qed.

Lemma subtract_spec A B :
  well_formed A = true -> well_formed B = true ->
  rows A = rows B -> cols A = cols B ->
  exists res,
    subtract A B = Ok res /\
    rows res = rows A /\ cols res = cols A /\ well_formed res = true /\
    forall r c, cell res r c = cell A r c - cell B r c.
Proof.
  intros HA HB Hr Hc. unfold subtract. rewrite Hr, Hc, !Z.eqb_refl. simpl.
  rewrite <- Hr, <- Hc.
  destruct (linear_spec Z.sub (-1) A B) as (res & E & ? & ? & ? & Hcell);
    try assumption; [intros; lia|].
  exists res. repeat split; try assumption; intros; rewrite Hcell; lia.
Qed.

End Arithmetic.

Section Multiplication.

Lemma multiply_inner_adds R C (a b : string * Z) rA cA rB cB :
  fst a = key rA cA -> fst b = key rB cB ->
  0 <= rA < R -> 0 <= cB < C ->
  adds R C
    (if num_eqb (key_col (fst a)) (key_row (fst b)) then
       if negb (snd a * snd b =? 0) then
         let* currentValue := getElement (key_row (fst a)) (key_col (fst b)) in
         setElement (key_row (fst a)) (key_col (fst b))
                    (currentValue + snd a * snd b)
       else ret tt
     else ret tt)
    (product_term a b).
Proof.
  intros Ea Eb HrA HcB. unfold product_term.
  rewrite Ea, Eb, !key_row_key, !key_col_key, !krow_key, !kcol_key. simpl.
  destruct (Z.eqb_spec cA rB) as [->|Hne]; simpl.
  - destruct (Z.eqb_spec (snd a * snd b) 0) as [E0|Hnz]; simpl.
    + eapply adds_ext; [|apply adds_ret]. intros r c. simpl.
      rewrite E0. now destruct ((rA =? r) && (cB =? c)).
    + apply adds_get_set; [assumption..|reflexivity].
  - apply adds_ret.
Qed.

Lemma multiply_adds A B :
  well_formed A = true -> well_formed B = true ->
  adds (rows A) (cols B)
    (for_each (elements A) (fun '(keyA, valueA) =>
       let rowA := key_row keyA in
       let colA := key_col keyA in
       for_each (elements B) (fun '(keyB, valueB) =>
         let rowB := key_row keyB in
         let colB := key_col keyB in
         if num_eqb colA rowB then
           let product := valueA * valueB in
           if negb (product =? 0) then
             let* currentValue := getElement rowA colB in
             setElement rowA colB (currentValue + product)
           else ret tt
         else ret tt)))
    (fun r c =>
       sumZ (elements A) (fun a =>
         sumZ (elements B) (fun b => product_term a b r c))).
Proof.
  intros HA HB.
  apply adds_for_each with
    (delta := fun a r c => sumZ (elements B) (fun b => product_term a b r c)).
  intros [kA vA] HinA.
  apply adds_for_each with (delta := fun b => product_term (kA, vA) b).
  intros [kB vB] HinB.
  destruct (well_formed_coords A _ HA HinA) as (rA & cA & Ea & HrA & _).
  destruct (well_formed_coords B _ HB HinB) as (rB & cB & Eb & _ & HcB).
  exact (multiply_inner_adds (rows A) (cols B) (kA, vA) (kB, vB)
           rA cA rB cB Ea Eb HrA HcB).
Qed.

(** The double sum over pairs of entries is the row-by-column product. *)
Lemma product_sum A B r c :
  well_formed A = true -> well_formed B = true -> cols A = rows B ->
  sumZ (elements A) (fun a =>
    sumZ (elements B) (fun b => product_term a b r c)) =
  sumZ (seqZ 0 (cols A)) (fun k => cell A r k * cell B k c).
Proof.
  intros HA HB Hn.
  transitivity (sumZ (elements A) (fun a =>
                  sumZ (seqZ 0 (cols A)) (fun k =>
                    at_cell r k a * cell B k c))).
  - apply sumZ_ext. intros [kA vA] HinA.
    destruct (well_formed_coords A _ HA HinA) as (rA & cA & Ea & _ & HcA).
    simpl in Ea. subst kA.
    transitivity ((if rA =? r then vA else 0) * cell B cA c).
    + rewrite (cell_sum B cA c HB), <- sumZ_scale_l.
      apply sumZ_ext. intros [kB vB] _.
      unfold product_term, at_cell. simpl. rewrite krow_key, kcol_key.
      rewrite (Z.eqb_sym cA (krow kB)).
      destruct (krow kB =? cA), (rA =? r), (kcol kB =? c); simpl; lia.
    + rewrite <- (sumZ_pick (cols A) cA
                    (fun k => (if rA =? r then vA else 0) * cell B k c) HcA).
      apply sumZ_ext. intros k _. unfold at_cell. simpl.
      rewrite krow_key, kcol_key.
      destruct (cA =? k), (rA =? r); simpl; lia.
  - rewrite sumZ_swap. apply sumZ_ext. intros k _.
    rewrite (cell_sum A r k HA), sumZ_scale_r. reflexivity.
Qed.

Lemma multiply_spec A B :
  well_formed A = true -> well_formed B = true -> cols A = rows B ->
  exists res,
    multiply A B = Ok res /\
    rows res = rows A /\ cols res = cols B /\ well_formed res = true /\
    forall r c,
      cell res r c = sumZ (seqZ 0 (cols A)) (fun k => cell A r k * cell B k c).
Proof.
  intros HA HB Hn. unfold multiply.
  replace (cols A =? rows B) with true by (symmetry; now apply Z.eqb_eq).
  cbn [negb].
  destruct (multiply_adds A B HA HB (zero_matrix (rows A) (cols B)))
    as (res & E & Hr & Hc & Hwf & Hcell); try reflexivity.
  exists res. unfold run. cbv zeta in E |- *. rewrite E.
  repeat split; try assumption.
  intros r c. rewrite Hcell, cell_zero_matrix. simpl.
  now apply product_sum.
Qed.

End Multiplication.

(** ** Documents *)

Section Loading.

Lemma max0_nonneg l : 0 <= max0 l.
Proof. induction l as [|x l IH]; simpl; lia. Qed.

Lemma max0_app l x : max0 (l ++ [x]) = Z.max (max0 l) (Z.max x 0).
Proof. induction l as [|y l IH]; simpl; [lia|]. rewrite IH. lia. Qed.

Lemma max0_upper l x : In x l -> x <= max0 l.
Proof.
  induction l as [|y l IH]; simpl; [easy|]. intros [->|H]; [lia|].
  specialize (IH H). lia.
Qed.


(** The first pass on lines that all parse. *)
Lemma first_pass_Ok lines es i acc :
  map _parseElementLine lines = map Some es ->
  first_pass i lines (max0 (map row acc)) (max0 (map col acc)) acc =
  Ok (max0 (map row (acc ++ es)), max0 (map col (acc ++ es)), (acc ++ es)%list).
Proof.
  revert es i acc. induction lines as [|line lines IH]; intros es i acc H.
  - destruct es; [|discriminate]. simpl. now rewrite app_nil_r.
  - destruct es as [|e es]; [discriminate|]. simpl in H.
    injection H as He Hes. simpl. rewrite He.
    replace (Z.max (max0 (map row acc)) (row e))
      with (max0 (map row (acc ++ [e]))).
    2:{ rewrite map_app. cbn [map]. rewrite max0_app.
        pose proof (max0_nonneg (map row acc)). lia. }
    replace (Z.max (max0 (map col acc)) (col e))
      with (max0 (map col (acc ++ [e]))).
    2:{ rewrite map_app. cbn [map]. rewrite max0_app.
        pose proof (max0_nonneg (map col acc)). lia. }
    rewrite (IH es (S i) (acc ++ [e])%list Hes).
    now rewrite <- !List.app_assoc.
Qed.

(** The first pass on lines one of which does not parse. *)
Lemma first_pass_Throw lines line i mr mc acc :
  In line lines -> _parseElementLine line = None ->
  exists msg,
    first_pass i lines mr mc acc = Throw (Error msg) /\
    includes "wrong format" msg = true.
Proof.
  revert i mr mc acc. induction lines as [|l lines IH]; intros i mr mc acc Hin Hnone.
  - destruct Hin.
  - simpl. destruct (_parseElementLine l) as [e|] eqn:El.
    + destruct Hin as [->|Hin]; [congruence|]. now apply IH.
    + eexists. split; reflexivity.
Qed.

(** Either every line parses or the first pass throws a format error. *)
Lemma first_pass_cases lines i mr mc acc :
  (exists es, map _parseElementLine lines = map Some es) \/
  (exists msg, first_pass i lines mr mc acc = Throw (Error msg) /\
               includes "wrong format" msg = true).
Proof.
  assert ((forall line, In line lines -> _parseElementLine line <> None) \/
          (exists line, In line lines /\ _parseElementLine line = None)) as [H|H].
  { induction lines as [|l lines IH]; [left; intros ? []|].
    destruct (_parseElementLine l) eqn:El.
    - destruct IH as [IH|(line & Hin & Hn)].
      + left. intros line [<-|Hin]; [congruence|auto].
      + right. exists line. split; [now right|exact Hn].
    - right. exists l. split; [now left|exact El]. }
  - left. induction lines as [|l lines IH]; [now exists []|].
    destruct IH as [es Hes]; [intros; apply H; now right|].
    destruct (_parseElementLine l) as [e|] eqn:El.
    + exists (e :: es). simpl. now rewrite El, Hes.
    + exfalso. apply (H l); [now left|exact El].
  - right. destruct H as (line & Hin & Hn). now apply first_pass_Throw with line.
Qed.

(** On a document the [try] block is the second pass on the resized
    matrix. *)
Lemma loadFromFile_try_document doc r c es this :
  document doc r c es ->
  loadFromFile_try doc this = second_pass es (resized this r c es).
Proof.
  intros (rowsLine & colsLine & body & Hv & Hbody & Hr1 & Hr2 & Hc1 & Hc2 & Hr & Hc & Hes).
  unfold loadFromFile_try. rewrite Hv.
  destruct body as [|b body]; [contradiction|].
  cbn [List.length Nat.ltb Nat.leb nth skipn].
  rewrite Hr1, Hc1, Hr2, Hc2. cbn [negb].
  destruct (Z.leb_spec r 0) as [|_]; [lia|].
  destruct (Z.leb_spec c 0) as [|_]; [lia|]. cbn [orb].
  pose proof (first_pass_Ok (b :: body) es 2 [] Hes) as Hfp.
  simpl app in Hfp. simpl map in Hfp at 1 2. simpl max0 in Hfp at 1 2.
  rewrite Hfp. unfold resized, final_rows, final_cols.
  now destruct ((r <=? max0 (map row es)) || (c <=? max0 (map col es))).
Qed.

(** Anything that is not a document throws a format error out of the
    [try] block. *)
Lemma loadFromFile_try_cases doc this :
  (exists r c es, document doc r c es) \/
  (exists msg, loadFromFile_try doc this = Throw (Error msg) /\
               includes "wrong format" msg = true).
Proof.
  unfold loadFromFile_try, document.
  destruct (valid_lines doc) as [|rowsLine [|colsLine [|b body]]];
    try (right; eexists; split; [reflexivity|reflexivity]).
  cbn [List.length Nat.ltb Nat.leb nth skipn].
  destruct (startsWith "rows=" rowsLine) eqn:Hr1;
    [|right; eexists; split; reflexivity].
  destruct (startsWith "cols=" colsLine) eqn:Hc1;
    [|right; eexists; split; reflexivity].
  cbn [negb].
  destruct (_parseInt (substring_from 5 rowsLine)) as [|r] eqn:Hr2;
    [right; eexists; split; reflexivity|].
  destruct (_parseInt (substring_from 5 colsLine)) as [|c] eqn:Hc2;
    [right; eexists; split; reflexivity|].
  destruct (Z.leb_spec r 0) as [|Hr]; [right; eexists; split; reflexivity|].
  destruct (Z.leb_spec c 0) as [|Hc]; [right; eexists; split; reflexivity|].
  cbn [orb].
  destruct (first_pass_cases (b :: body) 2 0 0 []) as [[es Hes]|(msg & E & Hm)].
  - left. exists r, c, es, rowsLine, colsLine, (b :: body).
    repeat split; try assumption. discriminate.
  - right. rewrite E. now exists msg.
Qed.

End Loading.

Section SecondPass.

Lemma in_bounds_dims m m' r c :
  rows m' = rows m -> cols m' = cols m -> in_bounds m' r c = in_bounds m r c.
Proof. intros Hr Hc. unfold in_bounds. now rewrite Hr, Hc. Qed.

Lemma out_of_bounds_message_dims m m' x y :
  rows m' = rows m -> cols m' = cols m ->
  out_of_bounds_message m' x y = out_of_bounds_message m x y.
Proof. intros Hr Hc. unfold out_of_bounds_message. now rewrite Hr, Hc. Qed.

Lemma second_pass_cons e es m :
  second_pass (e :: es) m =
  if value e =? 0 then second_pass es m
  else match setElement (Int (row e)) (Int (col e)) (value e) m with
       | Ok (_, m') => second_pass es m'
       | Throw x => Throw x
       end.
Proof.
  unfold second_pass. cbn [for_each]. unfold bind.
  destruct (value e =? 0); cbn [negb]; [reflexivity|].
  now destruct (setElement _ _ _ m) as [[[] m']|x].
Qed.

(** The second pass either stores every non-zero entry or stops at the
    first one that is out of bounds. *)
Lemma second_pass_spec es m0 :
  well_formed m0 = true ->
  (exists m1,
     second_pass es m0 = Ok (tt, m1) /\
     rows m1 = rows m0 /\ cols m1 = cols m0 /\ well_formed m1 = true /\
     Forall (admissible m0) es) \/
  (exists es1 e es2,
     es = (es1 ++ e :: es2)%list /\ Forall (admissible m0) es1 /\
     value e <> 0 /\ in_bounds m0 (row e) (col e) = false /\
     second_pass es m0 =
     Throw (Error (out_of_bounds_message m0 (Int (row e)) (Int (col e))))).
Proof.
  revert m0. induction es as [|e es IH]; intros m0 Hwf.
  - left. exists m0. repeat split; try assumption. constructor.
  - rewrite !second_pass_cons.
    destruct (Z.eqb_spec (value e) 0) as [Hz|Hnz].
    + destruct (IH m0 Hwf) as [(m1 & E & Hr & Hc & Hwf1 & Hall)
                              |(es1 & e' & es2 & -> & Hall & Hv & Hb & E)].
      * left. exists m1. repeat split; try assumption.
        constructor; [intros Hv; contradiction|exact Hall].
      * right. exists (e :: es1), e', es2. repeat split; try assumption.
        constructor; [intros Hv'; contradiction|exact Hall].
    + destruct (in_bounds m0 (row e) (col e)) eqn:Hb.
      * destruct (setElement_spec m0 (row e) (col e) (value e) Hwf Hb)
          as (m' & E' & Hr' & Hc' & Hwf' & _).
        rewrite E'.
        destruct (IH m' Hwf') as [(m1 & E & Hr & Hc & Hwf1 & Hall)
                                 |(es1 & e' & es2 & -> & Hall & Hv & Hb' & E)].
        -- left. exists m1. repeat split; try congruence.
           constructor; [intros _; exact Hb|].
           eapply Forall_impl; [exact Hall|]. intros x Hx Hv.
           rewrite <- (in_bounds_dims m0 m') by assumption. auto.
        -- right. exists (e :: es1), e', es2.
           rewrite (in_bounds_dims m0 m') in Hb' by assumption.
           rewrite (out_of_bounds_message_dims m0 m') in E by assumption.
           repeat split; try assumption.
           constructor; [intros _; exact Hb|].
           eapply Forall_impl; [exact Hall|]. intros x Hx Hv'.
           rewrite <- (in_bounds_dims m0 m') by assumption. auto.
      * right. exists [], e, es. rewrite (setElement_out m0 _ _ _ Hb).
        repeat split; try assumption. constructor.
Qed.



(** Inside the final dimensions, every non-negative coordinate of an
    entry is in bounds. *)
Lemma final_in_bounds this r c es e :
  0 < r -> 0 < c -> In e es ->
  in_bounds (resized this r c es) (row e) (col e) =
  (0 <=? row e) && (0 <=? col e).
Proof.
  intros Hr Hc Hin. unfold in_bounds, resized, final_rows, final_cols. simpl.
  pose proof (max0_upper (map row es) (row e) (in_map row es e Hin)) as H1.
  pose proof (max0_upper (map col es) (col e) (in_map col es e Hin)) as H2.
  destruct (Z.leb_spec r (max0 (map row es)));
    destruct (Z.leb_spec c (max0 (map col es))); simpl;
    destruct (Z.leb_spec 0 (row e)); destruct (Z.leb_spec 0 (col e)); simpl;
    try reflexivity;
    repeat match goal with
           | |- context [?a <? ?b] => destruct (Z.ltb_spec a b); simpl
           end; try reflexivity; lia.
Qed.

End SecondPass.

(** ** Parsing *)

Section Parsing.

Lemma resized_well_formed r c es :
  well_formed (resized empty_object_matrix r c es) = true.
Proof. reflexivity. Qed.

Lemma parse_eq doc :
  parse doc =
  match loadFromFile_try doc empty_object_matrix with
  | Ok (_, m) => Ok m
  | Throw error =>
      if includes "wrong format" (message error)
      then Throw wrong_format else Throw error
  end.
Proof.
  unfold parse, new_SparseMatrix, loadFromFile.
  fold empty_object_matrix.
  destruct (loadFromFile_try doc empty_object_matrix) as [[[] m]|e];
    [reflexivity|].
  now destruct (includes "wrong format" (message e)).
Qed.



(** Every successful parse is the parse of a document. *)
Lemma parse_Ok_inv doc m :
  parse doc = Ok m ->
  exists r c es,
    document doc r c es /\
    second_pass es (resized empty_object_matrix r c es) = Ok (tt, m) /\
    rows m = final_rows r c es /\ cols m = final_cols r c es /\
    well_formed m = true /\
    Forall (fun e => value e <> 0 -> 0 <= row e /\ 0 <= col e) es.
Proof.
  intros Hp. rewrite parse_eq in Hp.
  destruct (loadFromFile_try_cases doc empty_object_matrix)
    as [(r & c & es & Hd)|(msg & E & Hm)].
  2:{ rewrite E in Hp. simpl in Hp. rewrite Hm in Hp. discriminate. }
  pose proof Hd as (_ & _ & _ & _ & _ & _ & _ & _ & _ & Hr & Hc & _).
  exists r, c, es. split; [exact Hd|].
  rewrite (loadFromFile_try_document doc r c es _ Hd) in Hp.
  destruct (second_pass_spec es (resized empty_object_matrix r c es))
    as [(m1 & E & Hrm & Hcm & Hwf & Hall)|(es1 & e & es2 & Hes & _ & _ & _ & E)].
  { apply resized_well_formed. }
  - rewrite E in Hp. injection Hp as <-. repeat split; try assumption.
    rewrite List.Forall_forall in *. intros e Hin Hv.
    specialize (Hall e Hin Hv). rewrite final_in_bounds in Hall by assumption.
    apply andb_true_iff in Hall as [H1 H2]. apply Z.leb_le in H1, H2. lia.
  - rewrite E in Hp. simpl in Hp.
    now destruct (includes "wrong format" _) in Hp.
Qed.

End Parsing.

(** ** Entry lines *)

Section EntryLines.

Lemma line_of_eq tr tc tv :
  line_of tr tc tv =
  String "(" ((tr +:+ String "," (tc +:+ String "," tv)) +:+ String ")" "").
Proof.
  unfold line_of.
  change ("(" +:+ tr +:+ "," +:+ tc +:+ "," +:+ tv +:+ ")")
    with (String "(" (tr +:+ String "," (tc +:+ String "," (tv +:+ ")")))).
  f_equal. rewrite (str_app_assoc tr). f_equal.
  change (String "," (tc +:+ String "," tv) +:+ ")")
    with (String "," ((tc +:+ String "," tv) +:+ ")")).
  f_equal. now rewrite str_app_assoc.
Qed.

Lemma parseElementLine_tokens tr tc tv :
  all_chars (not_char ",") tr = true ->
  all_chars (not_char ",") tc = true ->
  all_chars (not_char ",") tv = true ->
  _parseElementLine (line_of tr tc tv) =
  match _parseInt (_trim tr), _parseInt (_trim tc), _parseInt (_trim tv) with
  | Int r, Int c, Int v => Some (mkElement r c v)
  | _, _, _ => None
  end.
Proof.
  intros Hr Hc Hv. rewrite line_of_eq.
  set (inner := tr +:+ String "," (tc +:+ String "," tv)).
  unfold _parseElementLine.
  assert (startsWith "(" (String "(" (inner +:+ String ")" "")) = true) as ->
    by reflexivity.
  assert (endsWith ")" (String "(" (inner +:+ String ")" "")) = true) as ->.
  { change (String "(" (inner +:+ String ")" ""))
      with (String "(" inner +:+ String ")" "").
    apply endsWith_app. }
  cbn [negb orb].
  assert (substring 1 (String.length (String "(" (inner +:+ String ")" "")) - 2)
            (String "(" (inner +:+ String ")" "")) = inner) as ->.
  { cbn [String.length]. rewrite str_length_app. cbn [String.length].
    replace (S (String.length inner + 1) - 2)%nat with (String.length inner) by lia.
    cbn [substring]. apply substring_0_app. }
  assert (_splitString inner "," = [tr; tc; tv]) as ->.
  { unfold inner. rewrite splitString_app by exact Hr.
    rewrite splitString_app by exact Hc.
    now rewrite splitString_single by exact Hv. }
  reflexivity.
Qed.

Lemma parse_digits_non_digit pre x post acc :
  is_digit x = false -> parse_digits (pre +:+ String x post) acc = NaN.
Proof.
  intros Hx. rewrite parse_digits_app.
  destruct (parse_digits pre acc); [reflexivity|]. simpl. now rewrite Hx.
Qed.

(** A token with a stray character does not read as a number. *)
Lemma parseInt_non_digit s : has_non_digit s -> _parseInt s = NaN.
Proof.
  intros (pre & x & post & -> & Hx & Hpre).
  destruct pre as [|a pre].
  - rewrite str_app_empty_l. unfold _parseInt.
    destruct (Ascii.eqb_spec x "-") as [->|_]; [destruct Hpre; congruence|].
    simpl. now rewrite Hx.
  - rewrite str_app_cons. unfold _parseInt.
    destruct (Ascii.eqb a "-").
    + now rewrite parse_digits_non_digit.
    + change (String a (pre +:+ String x post))
        with (String a pre +:+ String x post).
      now rewrite parse_digits_non_digit.
Qed.

Lemma parseElementLine_non_digit tr tc tv :
  all_chars (not_char ",") tr = true ->
  all_chars (not_char ",") tc = true ->
  all_chars (not_char ",") tv = true ->
  has_non_digit (_trim tr) \/ has_non_digit (_trim tc) \/
  has_non_digit (_trim tv) ->
  _parseElementLine (line_of tr tc tv) = None.
Proof.
  intros Hr Hc Hv H. rewrite parseElementLine_tokens by assumption.
  destruct H as [H|[H|H]]; rewrite (parseInt_non_digit _ H);
    repeat match goal with
           | |- context [match ?x with NaN => _ | Int _ => _ end] => destruct x
           end; reflexivity.
Qed.

End EntryLines.

(** ** Serialization *)

Section Serialization.

Lemma sort_insert_perm cmp a l : Permutation (sort_insert cmp a l) (a :: l).
Proof.
  induction l as [|b l IH]; simpl; [reflexivity|].
  destruct (comes_after cmp a b); [|reflexivity].
  rewrite IH. apply perm_swap.
Qed.

Lemma sort_perm cmp l : Permutation (sort cmp l) l.
Proof.
  induction l as [|a l IH]; simpl; [reflexivity|].
  rewrite sort_insert_perm. now constructor.
Qed.

Lemma fold_left_append {X} (f : X -> string) l h :
  fold_left (fun result e => result +:+ f e) l h =
  h +:+ fold_right (fun e acc => f e +:+ acc) "" l.
Proof.
  revert h. induction l as [|x l IH]; intros h; simpl.
  - now rewrite str_app_empty_r.
  - now rewrite IH, str_app_assoc.
Qed.



End Serialization.

Ltac str_norm :=
  repeat (rewrite str_app_assoc || rewrite str_app_cons
          || rewrite str_app_empty_l).

Section RoundTrip.

Lemma entry_of_well_formed m kv :
  well_formed m = true -> In kv (elements m) ->
  entry_of kv = mkEntry (Int (krow (fst kv))) (Int (kcol (fst kv))) (snd kv) /\
  kv_of (element_of_entry (entry_of kv)) = kv /\
  in_bounds m (krow (fst kv)) (kcol (fst kv)) = true /\ snd kv <> 0.
Proof.
  intros Hwf Hin.
  destruct (key_ok_decode m (fst kv) (well_formed_keys m kv Hwf Hin))
    as (Er & Ec & Ek & Hb).
  unfold entry_of. rewrite Er, Ec. split; [reflexivity|].
  split; [|split; [exact Hb|]].
  - unfold kv_of, element_of_entry. simpl. rewrite <- Ek. now destruct kv.
  - apply well_formed_iff in Hwf as [Hinv _].
    apply sparsity_invariant_iff in Hinv as (_ & Hnz & _).
    rewrite List.Forall_forall in Hnz. auto.
Qed.

Lemma printed_elements_perm m :
  well_formed m = true ->
  Permutation (map kv_of (printed_elements m)) (elements m).
Proof.
  intros Hwf. unfold printed_elements. rewrite map_map.
  rewrite (Permutation_map _ (sort_perm compare_entries _)).
  rewrite map_map. 
  assert (map (fun x => kv_of (element_of_entry (entry_of x))) (elements m)
          = elements m) as ->; [|reflexivity].
  rewrite <- (map_id (elements m)) at 2. apply map_ext_in.
  intros kv Hin. now destruct (entry_of_well_formed m kv Hwf Hin) as (_ & E & _).
Qed.


Lemma entry_line_text r c v :
  entry_line (mkEntry (Int r) (Int c) v) =
  entry_text (mkElement r c v) +:+ String "010" "".
Proof.
  unfold entry_line, entry_text, line_of, num_to_string. simpl.
  str_norm. reflexivity.
Qed.

Lemma toString_eq m :
  well_formed m = true ->
  toString m =
  join_lines (("rows=" +:+ pretty (rows m)) :: ("cols=" +:+ pretty (cols m))
              :: map entry_text (printed_elements m)).
Proof.
  intros Hwf. unfold toString, printed_elements. rewrite fold_left_append.
  assert (forall es,
            (forall e, In e es -> exists r c, e_row e = Int r /\ e_col e = Int c) ->
            fold_right (fun e acc => entry_line e +:+ acc) "" es =
            join_lines (map entry_text (map element_of_entry es))) as Hlines.
  { induction es as [|e es IH]; intros H; [reflexivity|].
    simpl. rewrite IH by (intros; apply H; now right).
    destruct (H e (or_introl eq_refl)) as (r & c & Er & Ec).
    destruct e as [er ec ev]. simpl in Er, Ec. subst er ec.
    rewrite entry_line_text. unfold element_of_entry. simpl.
    str_norm. reflexivity. }
  rewrite Hlines.
  - simpl join_lines. str_norm. reflexivity.
  - intros e Hin.
    apply (Permutation_in _ (sort_perm compare_entries _)) in Hin.
    apply in_map_iff in Hin as (kv & <- & Hin).
    destruct (entry_of_well_formed m kv Hwf Hin) as (E & _).
    rewrite E. simpl. eauto.
Qed.






End RoundTrip.

Section RoundTripMain.


Lemma obj_get_perm k o o' :
  NoDup (keys o) -> Permutation o o' -> obj_get k o = obj_get k o'.
Proof.
  intros Hnd Hp.
  assert (NoDup (keys o')) as Hnd'.
  { unfold keys. now rewrite <- (Permutation_map fst Hp). }
  destruct (obj_get k o) as [v|] eqn:E.
  - symmetry. apply In_obj_get; [exact Hnd'|].
    apply (Permutation_in _ Hp). now apply obj_get_In.
  - symmetry. apply obj_get_None. apply obj_get_None in E.
    intros H. apply E. unfold keys in *.
    now apply (Permutation_in _ (Permutation_sym (Permutation_map fst Hp))).
Qed.


Lemma value_at_same m m' :
  rows m' = rows m -> cols m' = cols m ->
  NoDup (keys (elements m')) -> Permutation (elements m') (elements m) ->
  forall r c, value_at m' r c = value_at m r c.
Proof.
  intros Hr Hc Hnd Hp r c. unfold value_at.
  destruct (in_bounds m r c) eqn:Hb.
  - rewrite (getElement_in m r c Hb).
    rewrite <- (in_bounds_dims m m') in Hb by assumption.
    rewrite (getElement_in m' r c Hb). f_equal. unfold cell.
    now rewrite (obj_get_perm _ _ _ Hnd Hp).
  - rewrite (getElement_out m r c Hb).
    rewrite <- (in_bounds_dims m m') in Hb by assumption.
    rewrite (getElement_out m' r c Hb).
    now rewrite (out_of_bounds_message_dims m m') by assumption.
Qed.



End RoundTripMain.

(** ** Matrices with the same cells *)

Section SameCells.

Lemma NoDup_keys_pairs (o : object) : NoDup (keys o) -> NoDup o.
Proof. unfold keys. apply NoDup_fmap_1. Qed.

Lemma well_formed_In_cell m k v :
  well_formed m = true -> In (k, v) (elements m) ->
  v <> 0 /\ k = key (krow k) (kcol k) /\ cell m (krow k) (kcol k) = v.
Proof.
  intros Hwf Hin.
  destruct (entry_of_well_formed m (k, v) Hwf Hin) as (_ & _ & _ & Hv).
  destruct (key_ok_decode m k (well_formed_keys m (k, v) Hwf Hin))
    as (_ & _ & Ek & _).
  split; [exact Hv|]. split; [exact Ek|].
  unfold cell. rewrite <- Ek.
  now rewrite (In_obj_get k v _ (well_formed_NoDup m Hwf) Hin).
Qed.

Lemma same_cells_In m m' kv :
  well_formed m = true -> well_formed m' = true ->
  (forall r c, cell m' r c = cell m r c) ->
  In kv (elements m) -> In kv (elements m').
Proof.
  intros Hwf Hwf' Hcell Hin. destruct kv as [k v].
  destruct (well_formed_In_cell m k v Hwf Hin) as (Hv & Ek & Hc).
  rewrite <- Hcell in Hc. unfold cell in Hc. rewrite <- Ek in Hc.
  destruct (obj_get k (elements m')) as [w|] eqn:E; [|congruence].
  subst w. now apply obj_get_In.
Qed.

Lemma same_cells_perm m m' :
  well_formed m = true -> well_formed m' = true ->
  (forall r c, cell m' r c = cell m r c) ->
  Permutation (elements m') (elements m) /\ elementCount m' = elementCount m.
Proof.
  intros Hwf Hwf' Hcell.
  assert (Permutation (elements m') (elements m)) as Hp.
  { apply NoDup_Permutation.
    - now apply NoDup_keys_pairs, well_formed_NoDup.
    - now apply NoDup_keys_pairs, well_formed_NoDup.
    - intros kv. rewrite !list_elem_of_In. split.
      + apply same_cells_In; try assumption. intros. now rewrite Hcell.
      + now apply same_cells_In. }
  split; [exact Hp|].
  apply well_formed_iff in Hwf as [Hinv _], Hwf' as [Hinv' _].
  apply sparsity_invariant_iff in Hinv as (_ & _ & ->).
  apply sparsity_invariant_iff in Hinv' as (_ & _ & ->).
  now rewrite (Permutation_length Hp).
Qed.

End SameCells.

(** ** Actions that keep the sparsity invariant *)

Section Preservation.

Lemma preserves_ret : preserves (ret tt).
Proof. intros m m' H [= <-]. exact H. Qed.

Lemma preserves_setElement x y v : preserves (setElement x y v).
Proof.
  intros m m' H E. now destruct (setElement_sparsity x y v m m' H E).
Qed.

Lemma preserves_bind (act1 act2 : M unit) :
  preserves act1 -> preserves act2 -> preserves (let* _ := act1 in act2).
Proof.
  intros H1 H2 m m' Hm E. unfold bind in E.
  destruct (act1 m) as [[[] m1]|e] eqn:E1; [|discriminate].
  eapply H2; [|exact E]. eapply H1; [exact Hm|exact E1].
Qed.

Lemma preserves_get_set x y (f : Z -> Z) :
  preserves (let* currentValue := getElement x y in
             setElement x y (f currentValue)).
Proof.
  intros m m' Hm E. unfold bind, getElement in E.
  destruct (out_of_bounds m x y); [discriminate|].
  eapply preserves_setElement; [exact Hm|exact E].
Qed.

Lemma preserves_for_each {X} (l : list X) (body : X -> M unit) :
  (forall x, preserves (body x)) -> preserves (for_each l body).
Proof.
  intros H. induction l as [|x l IH]; simpl.
  - apply preserves_ret.
  - apply preserves_bind; [apply H|exact IH].
Qed.

Lemma preserves_run (act : M unit) R C res :
  preserves act -> run act (zero_matrix R C) = Ok res ->
  sparsity_invariant res = true.
Proof.
  intros H E. unfold run in E.
  destruct (act (zero_matrix R C)) as [[[] m]|e] eqn:E1; [|discriminate].
  injection E as <-. eapply H; [|exact E1]. reflexivity.
Qed.

Lemma preserves_linear op A B :
  preserves (let* _ := copy_elements (elements A) in
             combine_elements op (elements B)).
Proof.
  apply preserves_bind.
  - apply preserves_for_each. intros [k v]. apply preserves_setElement.
  - apply preserves_for_each. intros [k v].
    apply (preserves_get_set _ _ (fun cur => op cur v)).
Qed.

Lemma add_sparsity A B res : add A B = Ok res -> sparsity_invariant res = true.
Proof.
  unfold add. destruct (_ || _); [discriminate|].
  apply preserves_run, preserves_linear.
Qed.

Lemma subtract_sparsity A B res :
  subtract A B = Ok res -> sparsity_invariant res = true.
Proof.
  unfold subtract. destruct (_ || _); [discriminate|].
  apply preserves_run, preserves_linear.
Qed.

Lemma multiply_sparsity A B res :
  multiply A B = Ok res -> sparsity_invariant res = true.
Proof.
  unfold multiply. destruct (negb _); [discriminate|].
  apply preserves_run. apply preserves_for_each. intros [kA vA].
  apply preserves_for_each. intros [kB vB]. cbv zeta.
  destruct (num_eqb _ _); [|apply preserves_ret].
  destruct (negb _); [|apply preserves_ret].
  apply (preserves_get_set _ _ (fun cur => cur + vA * vB)).
Qed.

Lemma parse_sparsity doc m : parse doc = Ok m -> sparsity_invariant m = true.
Proof.
  intros H. apply parse_Ok_inv in H as (r & c & es & _ & _ & _ & _ & Hwf & _).
  now apply well_formed_iff in Hwf.
Qed.

End Preservation.

(** ** Matrices built through the interface are well formed *)

Lemma well_formed_interface :
  (forall R C, well_formed (zero_matrix R C) = true) /\
  (forall doc m, parse doc = Ok m -> well_formed m = true) /\
  (forall m r c v m',
     well_formed m = true -> setElement (Int r) (Int c) v m = Ok (tt, m') ->
     well_formed m' = true) /\
  (forall A B res,
     well_formed A = true -> well_formed B = true ->
     add A B = Ok res -> well_formed res = true) /\
  (forall A B res,
     well_formed A = true -> well_formed B = true ->
     subtract A B = Ok res -> well_formed res = true) /\
  (forall A B res,
     well_formed A = true -> well_formed B = true ->
     multiply A B = Ok res -> well_formed res = true).
Proof.
  split; [reflexivity|]. split; [|split; [|split; [|split]]].
  - intros doc m H.
    now apply parse_Ok_inv in H as (r & c & es & _ & _ & _ & _ & Hwf & _).
  - intros m r c v m' Hwf E.
    destruct (in_bounds m r c) eqn:Hb.
    + destruct (setElement_spec m r c v Hwf Hb) as (m1 & E1 & _ & _ & Hwf1 & _).
      congruence.
    + rewrite (setElement_out m r c v Hb) in E. discriminate.
  - intros A B res HA HB E. unfold add in E.
    destruct (Z.eqb_spec (rows A) (rows B)) as [Hr|]; [|discriminate].
    destruct (Z.eqb_spec (cols A) (cols B)) as [Hc|]; [|discriminate].
    destruct (add_spec A B HA HB Hr Hc) as (res' & E' & _ & _ & Hwf & _).
    unfold add in E'. rewrite Hr, Hc, !Z.eqb_refl in E'. simpl in E, E'.
    rewrite Hr, Hc in E. congruence.
  - intros A B res HA HB E. unfold subtract in E.
    destruct (Z.eqb_spec (rows A) (rows B)) as [Hr|]; [|discriminate].
    destruct (Z.eqb_spec (cols A) (cols B)) as [Hc|]; [|discriminate].
    destruct (subtract_spec A B HA HB Hr Hc) as (res' & E' & _ & _ & Hwf & _).
    unfold subtract in E'. rewrite Hr, Hc, !Z.eqb_refl in E'. simpl in E, E'.
    rewrite Hr, Hc in E. congruence.
  - intros A B res HA HB E.
    destruct (Z.eq_dec (cols A) (rows B)) as [Hn|Hn].
    + destruct (multiply_spec A B HA HB Hn) as (res' & E' & _ & _ & Hwf & _).
      congruence.
    + unfold multiply in E.
      destruct (Z.eqb_spec (cols A) (rows B)); [contradiction|discriminate].
Qed.

(** The end-to-end example of the specification. *)
Example add_example :
  add example_A example_B =
  Ok (mkSparseMatrix 2 2 [("0,0", 2); ("0,1", 2); ("1,0", 3); ("1,1", 5)] 4).
Proof. vm_compute. reflexivity. Qed.

Example multiply_example :
  multiply example_A example_B =
  Ok (mkSparseMatrix 2 2 [("0,0", 1); ("0,1", 2); ("1,0", 3); ("1,1", 4)] 4).
Proof. vm_compute. reflexivity. Qed.

(** * The claims of the specification *)

Ltac document_by_computation :=
  eexists _, _, _; vm_compute;
  repeat split; try reflexivity; try discriminate.




(** C2, as stated, fails: the document declaring 2x2 with the single entry
    [(5, 0, 7)] loads with one column, not two. *)
Lemma growth_counterexample :
  exists m,
    parse growth_doc = Ok m /\ rows m = 6 /\ cols m = 1 /\
    ~ (rows m = 6 /\ cols m = 2).
Proof.
  exists (mkSparseMatrix 6 1 [("5,0", 7)] 1).
  split; [vm_compute; reflexivity|]. simpl. repeat split. intros [_ H].
  discriminate H.
Qed.

(** C2, amended: loading the document declaring [rows=2] and [cols=2] whose
    single entry line is [(5, 0, 7)] yields a matrix with [rows = 6] and
    [cols = 1] (both dimensions are reset to the largest coordinate plus one),
    and [getElement(5, 0)] is [7] on it. *)
Theorem growth_example :
  exists m,
    parse growth_doc = Ok m /\ rows m = 6 /\ cols m = 1 /\
    getElement (Int 5) (Int 0) m = Ok (7, m).
Proof.
  exists (mkSparseMatrix 6 1 [("5,0", 7)] 1).
  split; [vm_compute; reflexivity|]. repeat split.
Qed.








(** C6: every operation of the public interface keeps the sparsity
    invariant (no stored entry has value zero and [elementCount] is the
    number of stored entries): construction with dimensions, construction by
    parsing, [setElement], [add], [subtract] and [multiply]. *)
Theorem sparsity_invariant_preserved :
  (forall R C m,
     new_SparseMatrix None (Some R) (Some C) = Ok m ->
     sparsity_invariant m = true) /\
  (forall doc m, parse doc = Ok m -> sparsity_invariant m = true) /\
  (forall x y v m m',
     sparsity_invariant m = true -> setElement x y v m = Ok (tt, m') ->
     sparsity_invariant m' = true) /\
  (forall A B res, add A B = Ok res -> sparsity_invariant res = true) /\
  (forall A B res, subtract A B = Ok res -> sparsity_invariant res = true) /\
  (forall A B res, multiply A B = Ok res -> sparsity_invariant res = true).
Proof.
  split; [|split; [|split; [|split; [|split]]]].
  - intros R C m [= <-]. reflexivity.
  - apply parse_sparsity.
  - intros x y v. apply preserves_setElement.
  - apply add_sparsity.
  - apply subtract_sparsity.
  - apply multiply_sparsity.
Qed.

Lemma sparsity_invariant_preserved_witness :
  sparsity_invariant (mkSparseMatrix 2 3 [] 0) = true /\
  sparsity_invariant (mkSparseMatrix 6 1 [("5,0", 7)] 1) = true /\
  sparsity_invariant (mkSparseMatrix 2 2 [("0,0", 1)] 1) = true /\
  sparsity_invariant
    (mkSparseMatrix 2 2 [("0,0", 2); ("0,1", 2); ("1,0", 3); ("1,1", 5)] 4) = true /\
  sparsity_invariant
    (mkSparseMatrix 2 2 [("0,1", 2); ("1,0", 3); ("1,1", 3)] 3) = true /\
  sparsity_invariant
    (mkSparseMatrix 2 2 [("0,0", 1); ("0,1", 2); ("1,0", 3); ("1,1", 4)] 4) = true.
Proof.
  pose proof sparsity_invariant_preserved as (H1 & H2 & H3 & H4 & H5 & H6).
  split; [apply (H1 2 3); reflexivity|].
  split; [apply (H2 growth_doc); vm_compute; reflexivity|].
  split; [apply (H3 (Int 0) (Int 0) 1 (mkSparseMatrix 2 2 [] 0));
          vm_compute; reflexivity|].
  split; [apply (H4 example_A example_B); vm_compute; reflexivity|].
  split; [apply (H5 example_A example_B); vm_compute; reflexivity|].
  apply (H6 example_A example_B); vm_compute; reflexivity.
Defined.

(** An entry line that does not parse makes the whole load fail with the
    uniform error. *)
Lemma parse_bad_line doc line :
  In line (skipn 2 (valid_lines doc)) -> _parseElementLine line = None ->
  parse doc = Throw wrong_format.
Proof.
  intros Hin Hnone. rewrite parse_eq.
  destruct (loadFromFile_try_cases doc empty_object_matrix)
    as [(r & c & es & Hd)|(msg & E & Hm)].
  - exfalso. destruct Hd as (rl & cl & body & Hv & _ & _ & _ & _ & _ & _ & _ & Hes).
    rewrite Hv in Hin. change (In line body) in Hin.
    apply (in_map _parseElementLine) in Hin. rewrite Hes, Hnone in Hin.
    apply in_map_iff in Hin as (e & He & _). discriminate He.
  - rewrite E. simpl. now rewrite Hm.
Qed.

(** C7: parsing the document [rows=2 / cols=2 / (1,1,x)] raises the format
    error and constructs no matrix; in general, an entry line that does not
    parse aborts the whole parse with the uniform wrong-format error, and an
    entry line one of whose numeric tokens contains a non-digit character
    (other than a minus sign in front) does not parse. *)
Theorem malformed_entry_aborts :
  parse malformed_doc = Throw wrong_format /\
  (forall doc line,
     In line (skipn 2 (valid_lines doc)) -> _parseElementLine line = None ->
     parse doc = Throw wrong_format) /\
  (forall tr tc tv,
     all_chars (not_char ",") tr = true ->
     all_chars (not_char ",") tc = true ->
     all_chars (not_char ",") tv = true ->
     has_non_digit (_trim tr) \/ has_non_digit (_trim tc) \/
     has_non_digit (_trim tv) ->
     _parseElementLine (line_of tr tc tv) = None).
Proof.
  split; [vm_compute; reflexivity|].
  split; [exact parse_bad_line|exact parseElementLine_non_digit].
Qed.

Lemma malformed_entry_aborts_witness :
  parse malformed_doc = Throw wrong_format /\
  _parseElementLine (line_of "1" "1" "x") = None.
Proof.
  split.
  - apply (proj1 (proj2 malformed_entry_aborts) malformed_doc "(1,1,x)").
    + vm_compute. now left.
    + reflexivity.
  - apply (proj2 (proj2 malformed_entry_aborts) "1" "1" "x");
      try reflexivity.
    right. right. exists "", "x"%char, "". repeat split. now right.
Defined.

(** C8: for every matrix, [getElement(row, col)] and
    [setElement(row, col, value)] raise the out-of-bounds error if and only
    if [row < 0], [col < 0], [row >= rows] or [col >= cols]; an in-bounds
    [getElement] returns the stored value, or zero when no entry is stored at
    the coordinate, and leaves the matrix unchanged; on a 2x2 matrix
    [getElement(2, 0)] raises the out-of-bounds error. *)
Theorem bounds_check m r c v :
  let outside := r < 0 \/ c < 0 \/ rows m <= r \/ cols m <= c in
  (outside ->
   getElement (Int r) (Int c) m =
   Throw (Error (out_of_bounds_message m (Int r) (Int c))) /\
   setElement (Int r) (Int c) v m =
   Throw (Error (out_of_bounds_message m (Int r) (Int c)))) /\
  (~ outside ->
   getElement (Int r) (Int c) m =
   Ok (match obj_get (_createKey (Int r) (Int c)) (elements m) with
       | Some stored => stored
       | None => 0
       end, m) /\
   exists m', setElement (Int r) (Int c) v m = Ok (tt, m')) /\
  (forall o n,
     getElement (Int 2) (Int 0) (mkSparseMatrix 2 2 o n) =
     Throw (Error "Index out of bounds: (2, 0) not in matrix of size 2x2")).
Proof.
  cbv zeta. split; [|split].
  - intros Hout.
    assert (in_bounds m r c = false) as Hb.
    { apply not_true_iff_false. rewrite in_bounds_iff. lia. }
    split; [now apply getElement_out|now apply setElement_out].
  - intros Hin.
    assert (in_bounds m r c = true) as Hb by (apply in_bounds_iff; lia).
    split; [now apply getElement_in|].
    destruct (setElement_Ok (Int r) (Int c) v m) as (n & E & _).
    { now rewrite out_of_bounds_Int, Hb. }
    eexists. exact E.
  - intros o n. reflexivity.
Qed.

Lemma bounds_check_witness :
  (getElement (Int 2) (Int 0) example_A =
   Throw (Error (out_of_bounds_message example_A (Int 2) (Int 0))) /\
   setElement (Int 2) (Int 0) 9 example_A =
   Throw (Error (out_of_bounds_message example_A (Int 2) (Int 0)))) /\
  (getElement (Int 1) (Int 0) example_A = Ok (3, example_A) /\
   exists m', setElement (Int 1) (Int 0) 9 example_A = Ok (tt, m')).
Proof.
  split.
  - apply (proj1 (bounds_check example_A 2 0 9)). simpl. lia.
  - apply (proj1 (proj2 (bounds_check example_A 1 0 9))). simpl. lia.
Defined.





(** * Further properties of the code *)

(** ** [_splitString] *)

Section SplitMore.

Lemma splitString_cons a s d :
  _splitString (String a s) d =
  if Ascii.eqb a d then "" :: _splitString s d
  else match _splitString s d with
       | piece :: pieces => String a piece :: pieces
       | [] => []
       end.
Proof.
  unfold _splitString. simpl. destruct (split_go d s) as [p ps].
  now destruct (Ascii.eqb a d).
Qed.

Lemma splitString_nonempty s d : _splitString s d <> [].
Proof. unfold _splitString. now destruct (split_go d s). Qed.

Lemma splitString_app_any s t d :
  _splitString (s +:+ String d t) d = (_splitString s d ++ _splitString t d)%list.
Proof.
  induction s as [|a s IH].
  - rewrite str_app_empty_l, splitString_cons, Ascii.eqb_refl. reflexivity.
  - rewrite str_app_cons, !splitString_cons, IH.
    destruct (Ascii.eqb a d); [reflexivity|].
    pose proof (splitString_nonempty s d).
    now destruct (_splitString s d).
Qed.

Lemma join_splitString s d : join d (_splitString s d) = s.
Proof.
  unfold join. induction s as [|a s IH]; [reflexivity|].
  rewrite splitString_cons.
  pose proof (splitString_nonempty s d) as Hne.
  destruct (Ascii.eqb_spec a d) as [->|_].
  - destruct (_splitString s d) as [|p ps]; [contradiction|].
    change (String.concat (String d "") ("" :: p :: ps))
      with (String d (String.concat (String d "") (p :: ps))).
    now rewrite IH.
  - destruct (_splitString s d) as [|p ps]; [contradiction|].
    destruct ps as [|q ps]; simpl in *; now rewrite <- IH.
Qed.

Lemma splitString_pieces s d :
  Forall (fun piece => all_chars (not_char d) piece = true) (_splitString s d).
Proof.
  induction s as [|a s IH]; [repeat constructor|].
  rewrite splitString_cons. destruct (Ascii.eqb a d) eqn:E.
  - constructor; [reflexivity|exact IH].
  - destruct (_splitString s d) as [|p ps]; [constructor|].
    apply Forall_cons in IH as [Hp Hps]. constructor; [|exact Hps].
    simpl. unfold not_char at 1. now rewrite E, Hp.
Qed.

Lemma splitString_length s d :
  List.length (_splitString s d) = S (count_char d s).
Proof.
  induction s as [|a s IH]; [reflexivity|].
  rewrite splitString_cons. simpl count_char.
  destruct (Ascii.eqb a d); simpl; [now rewrite IH|].
  destruct (_splitString s d) as [|p ps]; simpl in *; lia.
Qed.

Lemma splitString_join_pieces pieces d :
  pieces <> [] ->
  Forall (fun piece => all_chars (not_char d) piece = true) pieces ->
  _splitString (join d pieces) d = pieces.
Proof.
  intros Hne Hall. unfold join.
  induction Hall as [|p ps Hp Hps IH]; [contradiction|].
  destruct ps as [|q ps].
  - simpl. now apply splitString_single.
  - change (String.concat (String d "") (p :: q :: ps))
      with (p +:+ String d (String.concat (String d "") (q :: ps))).
    rewrite splitString_app by exact Hp. f_equal. now apply IH.
Qed.

End SplitMore.

(** X1: joining the pieces [_splitString] returns with the delimiter gives
    the string back; no piece contains the delimiter; there is one piece
    more than there are delimiters (so never none: the empty string splits
    into one empty piece). *)
Theorem splitString_inverse_of_join s d :
  join d (_splitString s d) = s /\
  Forall (fun piece => all_chars (not_char d) piece = true) (_splitString s d) /\
  List.length (_splitString s d) = S (count_char d s).
Proof.
  split; [apply join_splitString|].
  split; [apply splitString_pieces|apply splitString_length].
Qed.

(** X2: splitting distributes over a delimiter, and splitting what was
    joined from delimiter-free pieces returns the pieces. *)
Theorem splitString_of_join pieces d :
  pieces <> [] ->
  Forall (fun piece => all_chars (not_char d) piece = true) pieces ->
  _splitString (join d pieces) d = pieces /\
  forall s t,
    _splitString (s +:+ String d t) d =
    (_splitString s d ++ _splitString t d)%list.
Proof.
  intros Hne Hall. split; [now apply splitString_join_pieces|].
  intros s t. apply splitString_app_any.
Qed.

Lemma splitString_of_join_witness :
  _splitString (join "," ["1"; " 2"; ""]) "," = ["1"; " 2"; ""] /\
  forall s t,
    _splitString (s +:+ String "," t) "," =
    (_splitString s "," ++ _splitString t ",")%list.
Proof.
  apply (splitString_of_join ["1"; " 2"; ""] ",").
  - discriminate.
  - repeat constructor.
Defined.

(** ** [_trim] *)

Section TrimMore.

Lemma trim_start_spaces w s :
  all_chars is_space w = true -> trim_start (w +:+ s) = trim_start s.
Proof.
  induction w as [|a w IH]; [reflexivity|]. simpl.
  rewrite andb_true_iff. intros [Ha Hw]. rewrite ?str_app_cons. simpl.
  now rewrite Ha, IH.
Qed.

Lemma trim_end_spaces_only w : all_chars is_space w = true -> trim_end w = "".
Proof.
  induction w as [|a w IH]; [reflexivity|]. simpl.
  rewrite andb_true_iff. intros [Ha Hw]. now rewrite IH, Ha.
Qed.

Lemma trim_end_spaces s w :
  all_chars is_space w = true -> trim_end (s +:+ w) = trim_end s.
Proof.
  intros Hw. induction s as [|a s IH].
  - rewrite str_app_empty_l. now apply trim_end_spaces_only.
  - rewrite str_app_cons. simpl. now rewrite IH.
Qed.

Lemma trim_start_split s :
  exists w, all_chars is_space w = true /\ s = w +:+ trim_start s.
Proof.
  induction s as [|a s (w & Hw & Hs)]; [now exists ""|]. simpl.
  destruct (is_space a) eqn:Ha.
  - exists (String a w). simpl. rewrite Ha, Hw. split; [reflexivity|].
    now rewrite str_app_cons, <- Hs.
  - now exists "".
Qed.

Lemma trim_end_split s :
  exists w, all_chars is_space w = true /\ s = trim_end s +:+ w.
Proof.
  induction s as [|a s (w & Hw & Hs)]; [now exists ""|]. simpl.
  destruct (trim_end s) as [|b t] eqn:E.
  - destruct (is_space a) eqn:Ha.
    + exists (String a w). simpl. rewrite Ha, Hw. split; [reflexivity|].
      rewrite str_app_empty_l in *. now rewrite <- Hs.
    + exists w. split; [exact Hw|]. rewrite str_app_cons, str_app_empty_l.
      rewrite str_app_empty_l in Hs. now rewrite <- Hs.
  - exists w. split; [exact Hw|]. now rewrite str_app_cons, <- Hs.
Qed.

Lemma trim_start_clean s : starts_clean (trim_start s) = true.
Proof.
  induction s as [|a s IH]; [reflexivity|]. simpl.
  destruct (is_space a) eqn:Ha; [exact IH|]. simpl. now rewrite Ha.
Qed.

Lemma trim_end_clean s : ends_clean (trim_end s) = true.
Proof.
  induction s as [|a s IH]; [reflexivity|]. simpl.
  destruct (trim_end s) as [|b t] eqn:E.
  - destruct (is_space a) eqn:Ha; [reflexivity|]. simpl. now rewrite Ha.
  - exact IH.
Qed.

Lemma trim_end_starts_clean s :
  starts_clean s = true -> starts_clean (trim_end s) = true.
Proof.
  destruct s as [|a s]; [reflexivity|]. simpl. intros Ha.
  destruct (trim_end s); [|exact Ha].
  apply negb_true_iff in Ha. rewrite Ha. simpl. now rewrite Ha.
Qed.

Lemma trim_start_id s : starts_clean s = true -> trim_start s = s.
Proof.
  destruct s as [|a s]; [reflexivity|]. simpl. intros Ha.
  apply negb_true_iff in Ha. now rewrite Ha.
Qed.

Lemma trim_end_id s : ends_clean s = true -> trim_end s = s.
Proof.
  induction s as [|a s IH]; [reflexivity|]. simpl.
  destruct s as [|b s].
  - intros Ha. apply negb_true_iff in Ha. simpl. now rewrite Ha.
  - intros H. rewrite (IH H). reflexivity.
Qed.

Lemma trim_padded w1 core w2 :
  all_chars is_space w1 = true -> all_chars is_space w2 = true ->
  starts_clean core = true -> ends_clean core = true ->
  _trim (w1 +:+ core +:+ w2) = core.
Proof.
  intros H1 H2 Hs He. unfold _trim. rewrite trim_start_spaces by exact H1.
  destruct core as [|a core].
  - rewrite str_app_empty_l.
    destruct (trim_start_split w2) as (w & Hw & Hw2).
    assert (all_chars is_space (trim_start w2) = true) as Ht.
    { rewrite Hw2, all_chars_app in H2. now apply andb_true_iff in H2. }
    now apply trim_end_spaces_only.
  - rewrite trim_start_id by (rewrite str_app_cons; exact Hs).
    rewrite trim_end_spaces by exact H2. now apply trim_end_id.
Qed.

End TrimMore.

(** X3: [_trim] removes white space (blank, tab, line feed, carriage
    return) at both ends and nothing else: the string is the trimmed string
    between two runs of white space, the trimmed string neither starts nor
    ends with white space, and trimming twice is trimming once. *)
Theorem trim_removes_surrounding_space s :
  (exists w1 w2,
     all_chars is_space w1 = true /\ all_chars is_space w2 = true /\
     s = w1 +:+ _trim s +:+ w2) /\
  starts_clean (_trim s) = true /\ ends_clean (_trim s) = true /\
  _trim (_trim s) = _trim s.
Proof.
  assert (starts_clean (_trim s) = true) as Hs
    by (apply trim_end_starts_clean, trim_start_clean).
  assert (ends_clean (_trim s) = true) as He by apply trim_end_clean.
  split; [|split; [exact Hs|split; [exact He|]]].
  - destruct (trim_start_split s) as (w1 & H1 & E1).
    destruct (trim_end_split (trim_start s)) as (w2 & H2 & E2).
    exists w1, w2. split; [exact H1|]. split; [exact H2|].
    unfold _trim. now rewrite <- E2.
  - rewrite <- (trim_padded "" (_trim s) "") at 2 by (assumption || reflexivity).
    now rewrite str_app_empty_l, str_app_empty_r.
Qed.

(** X4: white space around a string that neither starts nor ends with
    white space is trimmed away, whatever the string holds inside. *)
Theorem trim_of_padded w1 core w2 :
  all_chars is_space w1 = true -> all_chars is_space w2 = true ->
  starts_clean core = true -> ends_clean core = true ->
  _trim (w1 +:+ core +:+ w2) = core.
Proof. exact (trim_padded w1 core w2). Qed.

Lemma trim_of_padded_witness :
  _trim (String "009" " " +:+ "rows = 2" +:+ String " " (String "013" "")) =
  "rows = 2".
Proof. apply trim_of_padded; reflexivity. Defined.
(** ** [_parseInt] and [_createKey] *)

Section ParseIntMore.



End ParseIntMore.



(** ** [_parseElementLine] *)

Section ElementLineMore.




Lemma endsWith_last c s :
  endsWith c s = true ->
  s = substring 0 (String.length s - 1) s +:+ String c "".
Proof.
  induction s as [|a s IH]; [discriminate|]. simpl.
  destruct s as [|b s].
  - intros H. apply Ascii.eqb_eq in H. now subst.
  - intros H. specialize (IH H). simpl in IH. simpl.
    rewrite Nat.sub_0_r in *. rewrite str_app_cons. f_equal. exact IH.
Qed.

Lemma bracketed_line line :
  startsWith "(" line = true -> endsWith ")" line = true ->
  line =
  String "(" (substring 1 (String.length line - 2) line +:+ String ")" "").
Proof.
  destruct line as [|a rest]; [discriminate|]. cbn [startsWith].
  destruct (Ascii.eqb_spec "(" a) as [<-|]; [|discriminate]. intros _ H.
  destruct rest as [|b rest]; [vm_compute in H; discriminate H|].
  f_equal. change (endsWith ")" (String b rest) = true) in H.
  apply endsWith_last in H. cbn [String.length] in *.
  replace (S (S (String.length rest)) - 2)%nat with (S (String.length rest) - 1)%nat
    by lia.
  cbn [substring]. exact H.
Qed.

End ElementLineMore.



(** X8: an entry line is accepted only in the shape [(t1,t2,t3)]: an
    opening parenthesis first, a closing one last (nothing after it),
    exactly two commas, and three tokens that read as the numbers of the
    entry once trimmed. *)
Theorem parseElementLine_shape line e :
  _parseElementLine line = Some e ->
  exists tr tc tv,
    line = line_of tr tc tv /\
    all_chars (not_char ",") tr = true /\
    all_chars (not_char ",") tc = true /\
    all_chars (not_char ",") tv = true /\
    _parseInt (_trim tr) = Int (row e) /\
    _parseInt (_trim tc) = Int (col e) /\
    _parseInt (_trim tv) = Int (value e).
Proof.
  unfold _parseElementLine.
  destruct (startsWith "(" line) eqn:Hs; [|discriminate].
  destruct (endsWith ")" line) eqn:He; [|discriminate]. cbn [negb orb].
  pose proof (bracketed_line line Hs He) as Hline.
  set (inner := substring 1 (String.length line - 2) line) in *.
  pose proof (join_splitString inner ",") as Hjoin.
  pose proof (splitString_pieces inner ",") as Hpieces.
  destruct (_splitString inner ",") as [|tr [|tc [|tv [|x parts]]]];
    try discriminate.
  cbn [List.length Nat.eqb negb map parseInt_part nth_error].
  destruct (_parseInt (_trim tr)) as [|r] eqn:Er; [discriminate|].
  destruct (_parseInt (_trim tc)) as [|c] eqn:Ec; [discriminate|].
  destruct (_parseInt (_trim tv)) as [|v] eqn:Ev; [discriminate|].
  intros [= <-]. exists tr, tc, tv.
  apply Forall_cons in Hpieces as [Hr Hpieces].
  apply Forall_cons in Hpieces as [Hc Hpieces].
  apply Forall_cons in Hpieces as [Hv _].
  repeat split; try assumption.
  rewrite line_of_eq, Hline. do 2 f_equal. rewrite <- Hjoin. reflexivity.
Qed.

Lemma parseElementLine_shape_witness :
  exists tr tc tv,
    "(1, 2 ,-3)" = line_of tr tc tv /\
    all_chars (not_char ",") tr = true /\
    all_chars (not_char ",") tc = true /\
    all_chars (not_char ",") tv = true /\
    _parseInt (_trim tr) = Int 1 /\
    _parseInt (_trim tc) = Int 2 /\
    _parseInt (_trim tv) = Int (-3).
Proof.
  apply (parseElementLine_shape "(1, 2 ,-3)" (mkElement 1 2 (-3))).
  reflexivity.
Defined.

(** ** [getElement] and [setElement] *)

Section AccessMore.

Lemma sparsity_NoDup m : sparsity_invariant m = true -> NoDup (keys (elements m)).
Proof. intros H. now apply sparsity_invariant_iff in H. Qed.

Lemma setElement_in_bounds m r c v :
  sparsity_invariant m = true -> in_bounds m r c = true ->
  exists m',
    setElement (Int r) (Int c) v m = Ok (tt, m') /\
    rows m' = rows m /\ cols m' = cols m /\
    elements m' = updated (key r c) v (elements m) /\
    sparsity_invariant m' = true.
Proof.
  intros Hinv Hb.
  destruct (setElement_Ok (Int r) (Int c) v m) as (n & E & _).
  { now rewrite out_of_bounds_Int, Hb. }
  destruct (setElement_sparsity _ _ _ _ _ Hinv E) as (Hinv' & Hr & Hc & He).
  eexists. split; [exact E|]. repeat split; assumption.
Qed.

End AccessMore.

(** X9: on a matrix that satisfies the sparsity invariant, [setElement] at
    an in-bounds coordinate succeeds and keeps the dimensions; afterwards
    [getElement] returns the value set there (zero after setting zero) and
    what it returned before at every other coordinate. *)
Theorem set_then_get m r c v :
  sparsity_invariant m = true -> in_bounds m r c = true ->
  exists m',
    setElement (Int r) (Int c) v m = Ok (tt, m') /\
    rows m' = rows m /\ cols m' = cols m /\
    getElement (Int r) (Int c) m' = Ok (v, m') /\
    forall r' c',
      (r', c') <> (r, c) -> value_at m' r' c' = value_at m r' c'.
Proof.
  intros Hinv Hb.
  destruct (setElement_in_bounds m r c v Hinv Hb)
    as (m' & E & Hr & Hc & He & Hinv').
  pose proof (sparsity_NoDup m Hinv) as Hnd.
  exists m'. split; [exact E|]. split; [exact Hr|]. split; [exact Hc|]. split.
  - rewrite getElement_in by now rewrite (in_bounds_dims m m').
    unfold cell. rewrite He, updated_get, String.eqb_refl by exact Hnd.
    now destruct (Z.eqb_spec v 0) as [->|_].
  - intros r' c' Hne. unfold value_at.
    destruct (in_bounds m r' c') eqn:Hb'.
    + rewrite (getElement_in m r' c' Hb').
      rewrite getElement_in by now rewrite (in_bounds_dims m m').
      unfold cell. rewrite He, updated_get, key_eqb by exact Hnd.
      destruct ((r =? r') && (c =? c')) eqn:Eq; [|reflexivity].
      apply andb_true_iff in Eq as [E1 E2]. apply Z.eqb_eq in E1, E2.
      subst. contradiction.
    + rewrite (getElement_out m r' c' Hb').
      rewrite getElement_out by now rewrite (in_bounds_dims m m').
      now rewrite (out_of_bounds_message_dims m m').
Qed.

Lemma set_then_get_witness :
  exists m',
    setElement (Int 1) (Int 0) 0 example_A = Ok (tt, m') /\
    rows m' = 2 /\ cols m' = 2 /\
    getElement (Int 1) (Int 0) m' = Ok (0, m') /\
    forall r' c',
      (r', c') <> (1, 0) -> value_at m' r' c' = value_at example_A r' c'.
Proof. apply (set_then_get example_A 1 0 0); reflexivity. Defined.

(** X10: how [setElement] moves [elementCount] on a matrix that satisfies the
    sparsity invariant: the count changes by one when the coordinate becomes
    stored, by minus one when it stops being stored, and not otherwise;
    setting zero at a coordinate that is not stored changes nothing at all,
    and setting the same value twice is setting it once. *)
Theorem setElement_count m r c v m' :
  sparsity_invariant m = true ->
  setElement (Int r) (Int c) v m = Ok (tt, m') ->
  elementCount m' - elementCount m =
  (if v =? 0 then 0 else 1) - (if cell m r c =? 0 then 0 else 1) /\
  (v = 0 -> cell m r c = 0 -> m' = m) /\
  setElement (Int r) (Int c) v m' = Ok (tt, m').
Proof.
  intros Hinv E.
  pose proof (sparsity_NoDup m Hinv) as Hnd.
  pose proof Hinv as Hinv0.
  apply sparsity_invariant_iff in Hinv0 as (_ & Hnz & _).
  assert (forall w, obj_get (key r c) (elements m) = Some w -> w <> 0) as Hw.
  { intros w Hg. apply obj_get_In in Hg. rewrite List.Forall_forall in Hnz.
    exact (Hnz _ Hg). }
  assert (forall o, obj_set (key r c) v (obj_set (key r c) v o)
                    = obj_set (key r c) v o) as Hset.
  { induction o as [|[k u] o IH]; simpl.
    - now rewrite String.eqb_refl.
    - destruct (String.eqb k (key r c)) eqn:Ek; simpl; rewrite Ek;
        [reflexivity|now rewrite IH]. }
  unfold setElement in *. fold (key r c) in *.
  destruct (out_of_bounds m (Int r) (Int c)) eqn:Hb; [discriminate|].
  unfold cell.
  destruct (Z.eqb_spec v 0) as [->|Hv]; simpl in E |- *.
  - destruct (obj_get (key r c) (elements m)) as [w|] eqn:Hg.
    + injection E as <-. simpl.
      destruct (Z.eqb_spec w 0) as [Hw0|_]; [now apply Hw in Hw0|].
      split; [lia|]. split; [intros _ Hw0; now apply Hw in Hw0|].
      unfold out_of_bounds in *. simpl in *. rewrite Hb.
      now rewrite obj_get_delete_eq.
    + injection E as <-. simpl. split; [lia|]. split; [reflexivity|].
      now rewrite Hb, Hg.
  - destruct (obj_get (key r c) (elements m)) as [w|] eqn:Hg.
    + injection E as <-. simpl.
      destruct (Z.eqb_spec w 0) as [Hw0|_]; [now apply Hw in Hw0|].
      split; [lia|]. split; [intros Hv0; contradiction|].
      unfold out_of_bounds in *. simpl in *. rewrite Hb.
      destruct (Z.eqb_spec v 0); [contradiction|].
      now rewrite obj_get_set_eq, Hset.
    + injection E as <-. simpl. split; [lia|].
      split; [intros Hv0; contradiction|].
      unfold out_of_bounds in *. simpl in *. rewrite Hb.
      destruct (Z.eqb_spec v 0); [contradiction|].
      now rewrite obj_get_set_eq, Hset.
Qed.

Lemma setElement_count_witness :
  3 - elementCount example_B = 1 - 0 /\
  setElement (Int 0) (Int 1) 2
    (mkSparseMatrix 2 2 [("0,0", 1); ("1,1", 1); ("0,1", 2)] 3) =
  Ok (tt, mkSparseMatrix 2 2 [("0,0", 1); ("1,1", 1); ("0,1", 2)] 3).
Proof.
  destruct (setElement_count example_B 0 1 2
              (mkSparseMatrix 2 2 [("0,0", 1); ("1,1", 1); ("0,1", 2)] 3)
              eq_refl eq_refl)
    as (Hcount & _ & Hagain).
  split; [exact Hcount|exact Hagain].
Defined.

(** ** Matrices up to the order of their entries, and [toString] *)

Section Canonical.

Lemma same_matrix_of_cells m m' :
  well_formed m = true -> well_formed m' = true ->
  rows m = rows m' -> cols m = cols m' ->
  (forall r c, cell m r c = cell m' r c) ->
  same_matrix m m'.
Proof.
  intros Hwf Hwf' Hr Hc Hcell.
  destruct (same_cells_perm m' m Hwf' Hwf Hcell) as [Hp Hn].
  repeat split; assumption.
Qed.

Lemma same_matrix_cells m m' :
  well_formed m = true -> same_matrix m m' ->
  forall r c, cell m r c = cell m' r c.
Proof.
  intros Hwf (_ & _ & _ & Hp) r c. unfold cell.
  now rewrite (obj_get_perm _ _ _ (well_formed_NoDup m Hwf) Hp).
Qed.

Lemma same_matrix_value_at m m' :
  well_formed m = true -> same_matrix m m' ->
  forall r c, value_at m r c = value_at m' r c.
Proof.
  intros Hwf (Hr & Hc & _ & Hp) r c.
  apply (value_at_same m' m); [exact Hr|exact Hc| |exact Hp].
  now apply well_formed_NoDup.
Qed.

Lemma comes_after_int a b :
  int_entry a -> int_entry b ->
  comes_after compare_entries a b = true <->
  lex_lt (element_of_entry b) (element_of_entry a).
Proof.
  intros (ra & ca & Ea1 & Ea2) (rb & cb & Eb1 & Eb2).
  unfold comes_after, compare_entries, lex_lt, element_of_entry.
  rewrite Ea1, Ea2, Eb1, Eb2. simpl.
  destruct (Z.eqb_spec ra rb) as [->|Hne]; simpl; rewrite Z.ltb_lt; lia.
Qed.

Lemma sort_insert_sorted a l :
  int_entry a -> Forall int_entry l ->
  StronglySorted (fun x y => lex_le (element_of_entry x) (element_of_entry y)) l ->
  StronglySorted (fun x y => lex_le (element_of_entry x) (element_of_entry y))
    (sort_insert compare_entries a l).
Proof.
  intros Ha Hint Hs. induction Hs as [|b l Hs IH Hb]; simpl.
  - repeat constructor.
  - apply Forall_cons in Hint as [Hbi Hint].
    destruct (comes_after compare_entries a b) eqn:E.
    + apply comes_after_int in E; [|assumption..].
      constructor; [now apply IH|].
      apply List.Forall_forall. intros x Hx.
      apply (Permutation_in _ (sort_insert_perm _ _ _)) in Hx.
      destruct Hx as [<-|Hx].
      * unfold lex_lt, lex_le in *. lia.
      * rewrite List.Forall_forall in Hb. auto.
    + assert (lex_le (element_of_entry a) (element_of_entry b)) as Hab.
      { destruct (comes_after_int a b Ha Hbi) as [_ H].
        unfold lex_lt, lex_le in *.
        destruct (Z.lt_trichotomy (row (element_of_entry a))
                    (row (element_of_entry b))) as [|[Er|]]; [lia| |].
        - destruct (Z.le_gt_cases (col (element_of_entry a))
                      (col (element_of_entry b))); [lia|].
          rewrite H in E by lia. discriminate.
        - rewrite H in E by lia. discriminate. }
      constructor; [now constructor|].
      constructor; [exact Hab|].
      rewrite List.Forall_forall in *. intros x Hx. specialize (Hb x Hx).
      unfold lex_le in *. lia.
Qed.

Lemma sort_sorted l :
  Forall int_entry l ->
  StronglySorted (fun x y => lex_le (element_of_entry x) (element_of_entry y))
    (sort compare_entries l).
Proof.
  induction 1 as [|a l Ha Hl IH]; simpl; [constructor|].
  apply sort_insert_sorted; [exact Ha| |exact IH].
  rewrite List.Forall_forall in *. intros x Hx. apply Hl.
  exact (Permutation_in _ (sort_perm compare_entries l) Hx).
Qed.

Lemma printed_elements_keys m :
  well_formed m = true ->
  NoDup (map (fun el => fst (kv_of el)) (printed_elements m)).
Proof.
  intros Hwf. rewrite <- (map_map kv_of fst).
  rewrite (Permutation_map fst (printed_elements_perm m Hwf)).
  now apply well_formed_NoDup.
Qed.

Lemma strictly_sorted l :
  NoDup (map (fun el => fst (kv_of el)) l) ->
  StronglySorted lex_le l -> StronglySorted lex_lt l.
Proof.
  intros Hnd Hs. induction Hs as [|a l Hs IH Ha]; [constructor|].
  simpl in Hnd. apply NoDup_cons in Hnd as [Hin Hnd].
  constructor; [now apply IH|].
  rewrite List.Forall_forall in *. intros x Hx. specialize (Ha x Hx).
  destruct Ha as [H|[H1 H2]]; [now left|].
  destruct (Z.eq_dec (col a) (col x)) as [E|]; [|right; lia].
  exfalso. apply Hin. apply list_elem_of_In.
  apply in_map_iff. exists x. split; [|exact Hx].
  simpl. now rewrite H1, E.
Qed.

Lemma printed_elements_sorted m :
  well_formed m = true -> StronglySorted lex_lt (printed_elements m).
Proof.
  intros Hwf. apply strictly_sorted; [now apply printed_elements_keys|].
  unfold printed_elements.
  assert (forall l,
            StronglySorted
              (fun x y => lex_le (element_of_entry x) (element_of_entry y)) l ->
            StronglySorted lex_le (map element_of_entry l)) as Hmap.
  { induction 1 as [|x l Hs IH Hx]; simpl; constructor; [exact IH|].
    apply List.Forall_forall. intros y Hy.
    apply in_map_iff in Hy as (z & <- & Hz).
    rewrite List.Forall_forall in Hx. auto. }
  apply Hmap, sort_sorted. apply List.Forall_forall. intros e Hin.
  apply in_map_iff in Hin as (kv & <- & Hin).
  destruct (entry_of_well_formed m kv Hwf Hin) as (E & _).
  rewrite E. now eexists _, _.
Qed.

Lemma printed_elements_same m m' :
  well_formed m = true -> well_formed m' = true ->
  Permutation (elements m) (elements m') ->
  printed_elements m = printed_elements m'.
Proof.
  intros Hwf Hwf' Hp.
  apply (StronglySorted_unique_strong lex_lt).
  - intros x y _ _ H1 H2. unfold lex_lt in *. lia.
  - now apply printed_elements_sorted.
  - now apply printed_elements_sorted.
  - unfold printed_elements.
    apply Permutation_map.
    rewrite (sort_perm compare_entries (map entry_of (elements m))).
    rewrite (sort_perm compare_entries (map entry_of (elements m'))).
    now apply Permutation_map.
Qed.

Lemma toString_same m m' :
  well_formed m = true -> well_formed m' = true -> same_matrix m m' ->
  toString m = toString m'.
Proof.
  intros Hwf Hwf' (Hr & Hc & _ & Hp).
  rewrite !toString_eq by assumption.
  now rewrite Hr, Hc, (printed_elements_same m m').
Qed.

End Canonical.



(** X12: two well-formed matrices with the same dimensions and the same
    stored entries, in whatever order, answer [getElement] alike at every
    coordinate and print the same text. *)
Theorem same_entries_same_text m m' :
  well_formed m = true -> well_formed m' = true -> same_matrix m m' ->
  toString m = toString m' /\
  forall r c, value_at m r c = value_at m' r c.
Proof.
  intros Hwf Hwf' Hsame.
  split; [now apply toString_same|now apply same_matrix_value_at].
Qed.

Lemma same_entries_same_text_witness :
  toString (mkSparseMatrix 2 2 [("1,0", 3); ("0,1", 2)] 2) =
  toString (mkSparseMatrix 2 2 [("0,1", 2); ("1,0", 3)] 2) /\
  forall r c,
    value_at (mkSparseMatrix 2 2 [("1,0", 3); ("0,1", 2)] 2) r c =
    value_at (mkSparseMatrix 2 2 [("0,1", 2); ("1,0", 3)] 2) r c.
Proof.
  apply same_entries_same_text; try reflexivity.
  repeat split. apply perm_swap.
Defined.



(** ** Algebra of [add], [subtract] and [multiply] *)

Section Algebra.



Lemma for_each_nothing {X} (l : list X) (body : X -> M unit) m :
  (forall x, body x m = Ok (tt, m)) -> for_each l body m = Ok (tt, m).
Proof.
  intros H. induction l as [|x l IH]; [reflexivity|].
  simpl. unfold bind. now rewrite H.
Qed.

End Algebra.

(** X14: addition is commutative: for well-formed matrices of the same
    dimensions, [A.add(B)] and [B.add(A)] have the same entries (possibly
    stored in another order) and print the same text. *)
Theorem add_commutative A B :
  well_formed A = true -> well_formed B = true ->
  rows A = rows B -> cols A = cols B ->
  exists S1 S2,
    add A B = Ok S1 /\ add B A = Ok S2 /\
    same_matrix S1 S2 /\ toString S1 = toString S2.
Proof.
  intros HA HB Hr Hc.
  destruct (add_spec A B HA HB Hr Hc) as (S1 & E1 & Hr1 & Hc1 & Hwf1 & Hcell1).
  destruct (add_spec B A HB HA (eq_sym Hr) (eq_sym Hc))
    as (S2 & E2 & Hr2 & Hc2 & Hwf2 & Hcell2).
  assert (same_matrix S1 S2) as Hsame.
  { apply same_matrix_of_cells; try assumption; try congruence.
    intros r c. rewrite Hcell1, Hcell2. lia. }
  exists S1, S2. repeat split; try apply Hsame; try assumption.
  now apply toString_same.
Qed.

Lemma add_commutative_witness :
  exists S1 S2,
    add example_A example_B = Ok S1 /\ add example_B example_A = Ok S2 /\
    same_matrix S1 S2 /\ toString S1 = toString S2.
Proof. apply add_commutative; reflexivity. Defined.





(** X17: multiplying by a matrix that stores nothing gives exactly the
    empty matrix of the product's dimensions, with count zero, whichever
    side the empty operand is on. *)
Theorem multiply_by_empty A B :
  cols A = rows B -> elements A = [] \/ elements B = [] ->
  multiply A B = Ok (zero_matrix (rows A) (cols B)).
Proof.
  intros Hn He. unfold multiply.
  replace (cols A =? rows B) with true by (symmetry; now apply Z.eqb_eq).
  cbn [negb]. unfold run.
  destruct He as [-> | ->]; [reflexivity|].
  rewrite for_each_nothing; [reflexivity|].
  now intros [kA vA].
Qed.

Lemma multiply_by_empty_witness :
  multiply example_A (zero_matrix 2 5) = Ok (zero_matrix 2 5).
Proof. apply (multiply_by_empty example_A (zero_matrix 2 5)); [reflexivity|now right]. Defined.





(** ** Loading *)

Section LoadingMore.

Lemma splitString_all_chars p s d :
  all_chars p s = true ->
  Forall (fun piece => all_chars p piece = true) (_splitString s d).
Proof.
  induction s as [|a s IH]; [repeat constructor|]. simpl.
  rewrite andb_true_iff. intros [Ha Hs]. specialize (IH Hs).
  rewrite splitString_cons. destruct (Ascii.eqb a d).
  - constructor; [reflexivity|exact IH].
  - destruct (_splitString s d) as [|q qs]; [constructor|].
    apply Forall_cons in IH as [Hq Hqs]. constructor; [|exact Hqs].
    simpl. now rewrite Ha, Hq.
Qed.

Lemma trim_spaces_only w : all_chars is_space w = true -> _trim w = "".
Proof.
  intros Hw. unfold _trim.
  destruct (trim_start_split w) as (u & Hu & E).
  apply trim_end_spaces_only.
  rewrite E, all_chars_app in Hw. now apply andb_true_iff in Hw.
Qed.

Lemma valid_lines_app s t :
  valid_lines (s +:+ String "010" t) = (valid_lines s ++ valid_lines t)%list.
Proof.
  unfold valid_lines. now rewrite splitString_app_any, map_app, List.filter_app.
Qed.

Lemma valid_lines_blank w : all_chars is_space w = true -> valid_lines w = [].
Proof.
  intros Hw. unfold valid_lines.
  pose proof (splitString_all_chars is_space w "010" Hw) as Hp.
  induction Hp as [|q qs Hq _ IH]; [reflexivity|].
  simpl. now rewrite (trim_spaces_only q Hq).
Qed.

Lemma trim_pad_any w1 s w2 :
  all_chars is_space w1 = true -> all_chars is_space w2 = true ->
  _trim (w1 +:+ s +:+ w2) = _trim s.
Proof.
  intros H1 H2.
  destruct (trim_start_split s) as (u1 & Hu1 & E1).
  destruct (trim_end_split (trim_start s)) as (u2 & Hu2 & E2).
  assert (s = u1 +:+ _trim s +:+ u2) as Hs by (unfold _trim; now rewrite <- E2).
  rewrite Hs at 1.
  replace (w1 +:+ (u1 +:+ _trim s +:+ u2) +:+ w2)
    with ((w1 +:+ u1) +:+ _trim s +:+ (u2 +:+ w2))
    by now rewrite !str_app_assoc.
  apply trim_padded.
  - now rewrite all_chars_app, H1, Hu1.
  - now rewrite all_chars_app, H2, Hu2.
  - apply trim_end_starts_clean, trim_start_clean.
  - apply trim_end_clean.
Qed.

Lemma valid_lines_single line :
  all_chars (not_char "010") line = true ->
  valid_lines line = if String.eqb (_trim line) "" then [] else [_trim line].
Proof.
  intros H. unfold valid_lines. rewrite splitString_single by exact H.
  simpl. now destruct (String.eqb (_trim line) "").
Qed.

Lemma parse_valid_lines doc doc' :
  valid_lines doc = valid_lines doc' -> parse doc = parse doc'.
Proof.
  intros H. rewrite !parse_eq. unfold loadFromFile_try. now rewrite H.
Qed.

End LoadingMore.

(** X20: blank lines are ignored by the loader wherever they stand: between
    two lines, in front of the text or at its end.  A blank line is any run
    of blanks, tabs, carriage returns and line feeds. *)
Theorem blank_lines_ignored s1 w s2 :
  all_chars is_space w = true ->
  parse (s1 +:+ String "010" (w +:+ String "010" s2)) =
    parse (s1 +:+ String "010" s2) /\
  parse (w +:+ String "010" s2) = parse s2 /\
  parse (s1 +:+ String "010" w) = parse s1.
Proof.
  intros Hw. pose proof (valid_lines_blank w Hw) as Hb.
  repeat split; apply parse_valid_lines; rewrite !valid_lines_app, Hb.
  - reflexivity.
  - reflexivity.
  - apply List.app_nil_r.
Qed.

Lemma blank_lines_ignored_witness :
  parse ("rows=2" +:+ String "010"
           ((String "013" "") +:+ String "010" (text ["cols=2"; "(0, 1, 4)"]))) =
    parse ("rows=2" +:+ String "010" (text ["cols=2"; "(0, 1, 4)"])).
Proof. apply (blank_lines_ignored "rows=2" (String "013" "")). reflexivity. Defined.

(** X21: white space around a line is ignored by the loader; a carriage
    return before the line feed is such white space, so files with CR LF
    line ends load as files with LF line ends do. *)
Theorem line_padding_ignored s1 w1 line w2 s2 :
  all_chars is_space w1 = true -> all_chars is_space w2 = true ->
  all_chars (not_char "010") (w1 +:+ line +:+ w2) = true ->
  parse (s1 +:+ String "010" ((w1 +:+ line +:+ w2) +:+ String "010" s2)) =
  parse (s1 +:+ String "010" (line +:+ String "010" s2)).
Proof.
  intros H1 H2 Hn. apply parse_valid_lines. rewrite !valid_lines_app.
  pose proof Hn as Hl. rewrite !all_chars_app in Hl.
  apply andb_true_iff in Hl as [_ Hl]. apply andb_true_iff in Hl as [Hl _].
  rewrite (valid_lines_single _ Hn), (valid_lines_single _ Hl).
  now rewrite trim_pad_any.
Qed.

Lemma line_padding_ignored_witness :
  parse ("rows=2" +:+ String "010"
           ((" " +:+ "cols=2" +:+ String "013" "") +:+ String "010" "(0, 1, 4)")) =
  parse ("rows=2" +:+ String "010" ("cols=2" +:+ String "010" "(0, 1, 4)")).
Proof. apply line_padding_ignored; reflexivity. Defined.

Section Duplicates.

Lemma second_pass_last es m0 m1 :
  well_formed m0 = true -> second_pass es m0 = Ok (tt, m1) ->
  forall i j, cell m1 i j = last_value es i j (cell m0 i j).
Proof.
  revert m0. induction es as [|e es IH]; intros m0 Hwf E i j.
  - injection E as <-. reflexivity.
  - rewrite second_pass_cons in E. unfold last_value. cbn [fold_left].
    fold (last_value es i j).
    destruct (Z.eqb_spec (value e) 0) as [Hz|Hnz].
    + cbn [negb]. rewrite andb_false_r. now apply IH.
    + cbn [negb]. rewrite andb_true_r.
      destruct (in_bounds m0 (row e) (col e)) eqn:Hb.
      * destruct (setElement_spec m0 (row e) (col e) (value e) Hwf Hb)
          as (m' & E' & _ & _ & Hwf' & Hcell).
        rewrite E' in E. rewrite (IH m' Hwf' E i j), Hcell. reflexivity.
      * rewrite (setElement_out m0 _ _ _ Hb) in E. discriminate.
Qed.

End Duplicates.

(** X22: when several entry lines name the same coordinate, the loaded
    matrix holds the value of the last of them whose value is not zero: a
    later line overwrites an earlier one, but a later line with value zero
    does not erase it.  A coordinate that only zero-valued lines name, or no
    line at all, holds zero. *)
Theorem last_nonzero_entry_wins doc r c es m :
  document doc r c es -> parse doc = Ok m ->
  forall i j,
    cell m i j = last_value es i j 0 /\
    (in_bounds m i j = true -> value_at m i j = Ok (last_value es i j 0)).
Proof.
  intros Hd Hp i j. rewrite parse_eq in Hp.
  rewrite (loadFromFile_try_document doc r c es _ Hd) in Hp.
  destruct (second_pass es (resized empty_object_matrix r c es))
    as [[[] m1]|x] eqn:E.
  2:{ now destruct (includes "wrong format" (message x)). }
  injection Hp as ->.
  pose proof (second_pass_last es _ m (resized_well_formed r c es) E i j) as Hc.
  change (cell (resized empty_object_matrix r c es) i j) with 0 in Hc.
  split; [exact Hc|]. intros Hb. unfold value_at.
  now rewrite (getElement_in m i j Hb), Hc.
Qed.

Lemma last_nonzero_entry_wins_witness :
  value_at (mkSparseMatrix 2 2 [("0,0", 7)] 1) 0 0 = Ok 7.
Proof.
  apply (proj2 (last_nonzero_entry_wins
                  (text ["rows=2"; "cols=2"; "(0, 0, 5)"; "(0, 0, 7)"; "(0, 0, 0)"])
                  2 2 [mkElement 0 0 5; mkElement 0 0 7; mkElement 0 0 0]
                  (mkSparseMatrix 2 2 [("0,0", 7)] 1)
                  ltac:(document_by_computation)
                  ltac:(vm_compute; reflexivity) 0 0)).
  reflexivity.
Defined.


(** ** The interactive driver *)

Section Driver.


End Driver.



Section ReadLine.

Lemma includes_char d s :
  includes (String d "") s = negb (all_chars (not_char d) s).
Proof.
  induction s as [|a s IH]; [reflexivity|].
  cbn [includes startsWith all_chars]. rewrite IH. unfold not_char.
  rewrite (Ascii.eqb_sym d a). now destruct (Ascii.eqb a d).
Qed.

Lemma first_piece_clean d s : all_chars (not_char d) (first_piece d s) = true.
Proof.
  induction s as [|a s IH]; [reflexivity|]. simpl.
  destruct (Ascii.eqb a d) eqn:E; [reflexivity|]. simpl.
  unfold not_char at 1. now rewrite E.
Qed.

Lemma first_piece_split d s :
  all_chars (not_char d) s = false ->
  s = first_piece d s
      +:+ String d (substring_from (String.length (first_piece d s) + 1) s).
Proof.
  induction s as [|a s IH]; [discriminate|]. simpl. unfold not_char at 1.
  destruct (Ascii.eqb_spec a d) as [->|Hne]; [reflexivity|]. simpl.
  intros H. rewrite str_app_cons. f_equal. now apply IH.
Qed.

End ReadLine.

(** X25: the input handler of the prompt loses nothing and delivers whole
    lines only.  When the buffered input holds a line feed, the answer is
    what stands in front of the first one, it holds no line feed, and the
    rest stays in the buffer for the next question; otherwise the input is
    kept in the buffer and no answer is given. *)
Theorem onData_keeps_input buffer data :
  match onData buffer data with
  | (rest, Some answer) =>
      buffer +:+ data = answer +:+ String "010" rest /\
      all_chars (not_char "010") answer = true
  | (rest, None) =>
      rest = buffer +:+ data /\ all_chars (not_char "010") rest = true
  end.
Proof.
  unfold onData. rewrite includes_char.
  destruct (all_chars (not_char "010") (buffer +:+ data)) eqn:E; cbn [negb].
  - now split.
  - split; [now apply first_piece_split|apply first_piece_clean].
Qed.
